(** * Engine-driven move accuracy: a model of [src/stockfish.ts]

    The development follows the source file top to bottom:

    - [JsString]: the string operations and the regular expressions the
      source uses ([/score cp (-?\d+)/], [/score mate (-?\d+)/] and
      [/^bestmove\s+([a-h][1-8][a-h][1-8qrbn]?)\b/]);
    - [Uci]: the [UciEngine] session as a state-and-error monad over the
      lines the engine delivers, with a log of what the session does;
    - [parseScoreFromInfoLine], [evalPosition], the per-move loop of
      [analyze], [cplToMoveScore] and the final average;
    - the vocabulary of the statements, then the statements.

    Numbers.  Engine scores are produced by [parseInt] and only added,
    subtracted, negated and compared: they are modelled as [Z].  The
    numbers of the source are doubles, which hold every integer of
    magnitude up to 2^53 and compute sums and differences of such integers
    exactly as long as the result stays in that range; beyond it the source
    rounds, and the model does not.  A statement that depends on the value
    of a score therefore carries the range it is made for ([safeInteger],
    or evaluations within 2^52).  The per-move scores and the accuracy are
    not integers; they are modelled as binary64 floats ([PrimFloat]), the
    arithmetic of JavaScript numbers.

    Strings are sequences of characters with codes below 256.

    Outside the model: the chess library (a parameter, [ChessLib]), the
    construction of the move records from the PGN text (the records are the
    input of [analyze] here), [console.log], and a process that cannot be
    launched (Node then raises an ['error'] event that the source does not
    listen to, which ends the program: such a run has no analysis). *)

From Stdlib Require Import ZArith List String Ascii Bool Lia.
From Stdlib Require Import Floats SpecFloat QArith Qpower Lqa.
From Stdlib Require Import DecimalString DecimalZ.
From Stdlib Require Import Sorted.
Import ListNotations.

Set Warnings "-inexact-float,-register-all".

Local Open Scope Z_scope.
Local Open Scope string_scope.
Local Open Scope list_scope.

(* ------------------------------------------------------------------ *)
(** ** Strings and regular expressions *)

Module JsString.

(** [\d] *)
Definition isDigit (c : ascii) : bool :=
  let n := nat_of_ascii c in (48 <=? n)%nat && (n <=? 57)%nat.

(** [\w]: letters, digits and underscore. *)
Definition isWordChar (c : ascii) : bool :=
  let n := nat_of_ascii c in
  ((48 <=? n)%nat && (n <=? 57)%nat)
  || ((65 <=? n)%nat && (n <=? 90)%nat)
  || ((97 <=? n)%nat && (n <=? 122)%nat)
  || (n =? 95)%nat.

(** [\s], on characters below 256: tab, line feed, vertical tab, form
    feed, carriage return, space and no-break space. *)
Definition isSpace (c : ascii) : bool :=
  let n := nat_of_ascii c in
  ((9 <=? n)%nat && (n <=? 13)%nat) || (n =? 32)%nat || (n =? 160)%nat.

(** [[a-h]] *)
Definition isFile (c : ascii) : bool :=
  let n := nat_of_ascii c in (97 <=? n)%nat && (n <=? 104)%nat.

(** [[1-8]] *)
Definition isRank (c : ascii) : bool :=
  let n := nat_of_ascii c in (49 <=? n)%nat && (n <=? 56)%nat.

(** [[qrbn]] *)
Definition isPromo (c : ascii) : bool :=
  match c with
  | "q"%char | "r"%char | "b"%char | "n"%char => true
  | _ => false
  end.

(** [[1-8qrbn]], the class the source writes for the fourth character. *)
Definition isRankOrPromo (c : ascii) : bool := isRank c || isPromo c.

(** [s.startsWith(p)] *)
Definition startsWith (s p : string) : bool := prefix p s.

(** The rest of [s] after the literal [p], when [s] starts with [p]. *)
Fixpoint stripPrefix (p s : string) : option string :=
  match p, s with
  | EmptyString, _ => Some s
  | String a p', String b s' =>
      if Ascii.eqb a b then stripPrefix p' s' else None
  | String _ _, EmptyString => None
  end.

(** The longest prefix of [s] made of characters satisfying [f], and what
    follows it. *)
Fixpoint span (f : ascii -> bool) (s : string) : string * string :=
  match s with
  | String c t =>
      if f c then let (a, b) := span f t in (String c a, b)
      else (EmptyString, s)
  | EmptyString => (EmptyString, EmptyString)
  end.

Definition digitVal (c : ascii) : Z := Z.of_nat (nat_of_ascii c) - 48.

(** Value of a run of decimal digits, most significant first. *)
Fixpoint digitsValue (acc : Z) (s : string) : Z :=
  match s with
  | String c t => if isDigit c then digitsValue (10 * acc + digitVal c) t else acc
  | EmptyString => acc
  end.

(** [parseInt(s, 10)] on the strings the regular expressions capture: an
    optional minus sign, then decimal digits read up to the first character
    that is not one.  (On a string without a leading digit JavaScript gives
    NaN; a capture always has one, see [captureInt_shape].)  The result is
    the integer the digits denote; the source holds it in a double, which
    is that integer when its magnitude is at most 2^53 ([safeInteger]) and
    the nearest double beyond. *)
Definition parseInt (s : string) : Z :=
  match s with
  | String "-"%char t => - digitsValue 0 t
  | _ => digitsValue 0 s
  end.

(** [(-?\d+)] at the start of [s]: the captured text.  The group is the
    last item of both patterns, so the greedy match is the only one tried
    that matters: an optional minus, then the whole run of digits, which
    must not be empty. *)
Definition captureInt (s : string) : option string :=
  match s with
  | String "-"%char t =>
      match fst (span isDigit t) with
      | EmptyString => None
      | ds => Some (String "-"%char ds)
      end
  | _ =>
      match fst (span isDigit s) with
      | EmptyString => None
      | ds => Some ds
      end
  end.

(** The pattern [lit (-?\d+)] anchored at the start of [s]. *)
Definition matchLitIntAt (lit s : string) : option string :=
  match stripPrefix lit s with
  | Some rest => captureInt rest
  | None => None
  end.

(** [s.match(re)] for an unanchored pattern without the [g] flag: the match
    at the leftmost position where the pattern matches. *)
Fixpoint search {A : Type} (at_ : string -> option A) (s : string) : option A :=
  match at_ s with
  | Some r => Some r
  | None =>
      match s with
      | String _ t => search at_ t
      | EmptyString => None
      end
  end.

(** [\b] at a position whose previous character is a word character: the
    next character is missing or is not a word character. *)
Definition boundaryAfterWord (rest : string) : bool :=
  match rest with
  | EmptyString => true
  | String c _ => negb (isWordChar c)
  end.

(** [\s+] at the start of [s]: what follows the run of white space, when
    the run is not empty.  The next item of the pattern, [[a-h]], matches
    no white space, so giving back white space never helps. *)
Definition skipSpaces1 (s : string) : option string :=
  match span isSpace s with
  | (EmptyString, _) => None
  | (_, rest) => Some rest
  end.

(** [line.match(/^bestmove\s+([a-h][1-8][a-h][1-8qrbn]?)\b/)], giving the
    capture group.  After the three mandatory characters the optional
    fourth is tried first (the quantifier is greedy); when the word
    boundary then fails, the pattern is retried without it. *)
Definition matchBestMove (line : string) : option string :=
  match stripPrefix "bestmove" line with
  | None => None
  | Some r0 =>
      match skipSpaces1 r0 with
      | Some (String c1 (String c2 (String c3 r3))) =>
          if isFile c1 && isRank c2 && isFile c3 then
            let with4 :=
              match r3 with
              | String c4 r4 =>
                  if isRankOrPromo c4 && boundaryAfterWord r4
                  then Some (String c1 (String c2 (String c3 (String c4 EmptyString))))
                  else None
              | EmptyString => None
              end in
            match with4 with
            | Some m => Some m
            | None =>
                if boundaryAfterWord r3
                then Some (String c1 (String c2 (String c3 EmptyString)))
                else None
            end
          else None
      | _ => None
      end
  end.

(** [s.slice(a, b)] for [0 <= a <= b]. *)
Definition slice (a b : nat) (s : string) : string := substring a (b - a) s.

(** The integers a double holds exactly whatever their value: magnitude at
    most 2^53. *)
Definition safeInteger (z : Z) : bool := (Z.abs z <=? 2 ^ 53)%Z.

End JsString.

Import JsString.

(* ------------------------------------------------------------------ *)
(** ** The engine session ([class UciEngine]) *)

Module Uci.

(** What a session does, in the order it does it. *)
Inductive event : Type :=
| Spawn (cmd : string)            (* [spawn(cmd, [], ...)] *)
| Write (cmd : string)            (* [proc.stdin.write(cmd + "\n")] *)
| Sleep (ms : Z)                  (* [await new Promise(r => setTimeout(r, ms))] *)
| SetOnLine (timeout : Z)         (* [onLine = handler], timer armed *)
| Resolve (line : string)         (* handler accepts [line]: [onLine = null], timer cleared *)
| Reject (msg : string).          (* timer fires: [onLine = null], promise rejected *)

(** The session: the lines the engine still delivers to [onLine], and the
    log of the session's actions, oldest first.

    The [data] handler of the constructor splits the output at line feeds,
    trims each line and hands it to [onLine] when a handler is installed;
    a line that arrives while [onLine] is null is dropped.  [inbox] holds
    the lines that reach a handler, trimmed, in order of arrival; every
    run of the source is the run of this model on the lines that reached
    its handlers.  The timer of a wait fires when no further line reaches
    the handler, that is, when [inbox] is used up. *)
Record session : Type := mkSession {
  inbox : list string;
  log : list event
}.

Inductive error : Type :=
| EngineError (msg : string).

Inductive result (A : Type) : Type :=
| Ok (a : A)
| Err (e : error).
Arguments Ok {A} a.
Arguments Err {A} e.

(** Asynchronous code of the source: a computation on the session that
    returns or throws. *)
Definition M (A : Type) : Type := session -> result A * session.

Definition ret {A} (a : A) : M A := fun s => (Ok a, s).

Definition bind {A B} (m : M A) (k : A -> M B) : M B :=
  fun s =>
    match m s with
    | (Ok a, s') => k a s'
    | (Err e, s') => (Err e, s')
    end.

Definition emit (e : event) : M unit :=
  fun s => (Ok tt, mkSession (inbox s) (log s ++ [e])).

Declare Scope uci_scope.
Delimit Scope uci_scope with uci.
Notation "x <- m ;; k" := (bind m (fun x => k))
  (at level 61, m at next level, right associativity) : uci_scope.
Notation "m ;; k" := (bind m (fun _ => k))
  (at level 61, right associativity) : uci_scope.
Local Open Scope uci_scope.

(** [const STOCKFISH_CMD] *)
Definition STOCKFISH_CMD : string := "C:\stockfish\stockfish.exe".

(** [send(cmd)] *)
Definition send (cmd : string) : M unit := emit (Write cmd).

(** [constructor]: spawn the process and send the handshake.  The process
    is taken to start: [spawn] itself returns a process object in any case,
    and a launch that fails shows later, outside [analyze] (see the header). *)
Definition newEngine : M unit :=
  emit (Spawn STOCKFISH_CMD) ;; send "uci".

Definition sleep (ms : Z) : M unit := emit (Sleep ms).

(** Lines are handed one by one to the handler, which keeps a local state
    [St] (the variables its closure captures) and may resolve the pending
    promise with a value.  The result is the value, the line that produced
    it and the lines not yet delivered; [None] when the lines run out
    first. *)
Fixpoint deliver {St A : Type} (h : St -> string -> St * option A) (st : St)
         (lines : list string) : option (A * string * list string) :=
  match lines with
  | [] => None
  | line :: rest =>
      let (st', r) := h st line in
      match r with
      | Some a => Some (a, line, rest)
      | None => deliver h st' rest
      end
  end.

(** The shape shared by [waitForLineMatching] and [evalPosition]: arm a
    timer, install the handler in the [onLine] slot, and suspend until the
    handler resolves or the timer rejects. *)
Definition awaitHandler {St A : Type} (h : St -> string -> St * option A)
           (st : St) (timeout : Z) (msg : string) : M A :=
  fun s =>
    let lg := log s ++ [SetOnLine timeout] in
    match deliver h st (inbox s) with
    | Some (a, line, rest) => (Ok a, mkSession rest (lg ++ [Resolve line]))
    | None => (Err (EngineError msg), mkSession [] (lg ++ [Reject msg]))
    end.

(** [waitForLineMatching(predicate, timeout)] *)
Definition waitForLineMatching (predicate : string -> bool) (timeout : Z) : M string :=
  awaitHandler
    (fun (_ : unit) line => (tt, if predicate line then Some line else None))
    tt timeout "Timeout waiting for engine line".

(** [quit()] *)
Definition quit : M unit :=
  send "quit" ;; sleep 50.

End Uci.

Import Uci.
Local Open Scope uci_scope.

(* ------------------------------------------------------------------ *)
(** ** Scores, evaluation and the analysis loop *)

(** [parseScoreFromInfoLine(line)] *)
Definition parseScoreFromInfoLine (line : string) : option Z :=
  match search (matchLitIntAt "score cp ") line with
  | Some cp => Some (parseInt cp)
  | None =>
      match search (matchLitIntAt "score mate ") line with
      | Some m =>
          let mateDistance := parseInt m in
          let sign := if (mateDistance >=? 0)%Z then 1 else -1 in
          let mag := 100000 - Z.abs mateDistance in
          Some (sign * mag)
      | None => None
      end
  end.

(** Decimal text of a number, as a template literal prints it. *)
Definition showN (n : N) : string := NilZero.string_of_uint (N.to_uint n).

(** The [onLine] handler of [evalPosition]; its state is [lastScore]. *)
Definition evalHandler (lastScore : option Z) (line : string) : option Z * option Z :=
  let lastScore' :=
    match parseScoreFromInfoLine line with
    | Some possible => Some possible
    | None => lastScore
    end in
  if startsWith line "bestmove" then
    (lastScore', Some (match lastScore' with None => 0 | Some v => v end))
  else (lastScore', None).

(** [evalPosition(engine, fen, depth)] *)
Definition evalPosition (fen : string) (depth : N) : M Z :=
  send ("position fen " ++ fen) ;;
  send ("go depth " ++ showN depth) ;;
  awaitHandler evalHandler None 60000 "Engine timed out during evalPosition".

(** One played move, as [analyze] records it while replaying the game:
    [{ moveSan, fromFen, toFen, turnBefore }]. *)
Inductive color : Type := White | Black.   (* ["w" | "b"] *)

Record MoveRecord : Type := mkMoveRecord {
  moveSan : string;
  fromFen : string;
  toFen : string;
  turnBefore : color
}.

(** One scored move: [{ idx, move, cpl, score }]. *)
Record MoveScore : Type := mkMoveScore {
  idx : nat;
  move : string;
  cpl : Z;
  score : float
}.

(** The move-application capability of the chess library, which is not part
    of this repository: [new Chess(fen)], then [move({ from, to, promotion })],
    then [fen()].  [None] stands for the exception [move] throws when the
    move cannot be applied.  ([new Chess(fen)] itself is taken not to throw:
    the positions it is given were printed by the library's own [fen()].) *)
Class ChessLib : Type := {
  applyMove : string -> string -> string -> option ascii -> option string
}.

(** [cplToMoveScore(cpl)] *)
Definition cplToMoveScore (cpl : Z) : float :=
  if (cpl <=? 10)%Z then 1.0%float
  else if (cpl <=? 30)%Z then 0.95%float
  else if (cpl <=? 60)%Z then 0.80%float
  else if (cpl <=? 100)%Z then 0.60%float
  else if (cpl <=? 200)%Z then 0.30%float
  else 0.10%float.

(** [rec.turnBefore === "w" ? 1 : -1] *)
Definition playerMultiplier (turn : color) : Z :=
  match turn with White => 1 | Black => -1 end.

(** Lines 206-216 of [analyze]: the loss of a move from the two evaluations,
    in the mover's perspective, clamped at zero.  (The entry stores
    [Math.round(cpl)], which is [cpl] itself on integers.) *)
Definition centipawnLoss (turn : color) (evalBest evalPlayed : Z) : Z :=
  let evalBestPersp := evalBest * playerMultiplier turn in
  let evalPlayedPersp := evalPlayed * playerMultiplier turn in
  let cpl := evalBestPersp - evalPlayedPersp in
  if (cpl <? 0)%Z then 0 else cpl.

(** [moveScores.length] and other counts as numbers. *)
Definition numberOfNat (n : nat) : float :=
  PrimFloat.of_uint63 (Uint63.of_Z (Z.of_nat n)).

(** The end of [analyze] (lines 226-233): the average of the scores as a
    percentage, 0 when nothing was scored. *)
Definition accuracyPct (moveScores : list MoveScore) : float :=
  match moveScores with
  | [] => 0%float
  | _ =>
      let avg :=
        (fold_left (fun s m => s + score m) moveScores 0 / numberOfNat (List.length moveScores))%float in
      (avg * 100)%float
  end.

Section Analyze.

Context {chess : ChessLib}.
Variable depth : N.

(** Lines 171-175: ask the engine for its best move in the position before
    the move, and wait for the line that names it. *)
Definition requestBestMove (rec : MoveRecord) : M string :=
  send ("position fen " ++ fromFen rec) ;;
  send ("go depth " ++ showN depth) ;;
  waitForLineMatching (fun l => startsWith l "bestmove") 60000.

(** Lines 180-200: the position after the engine's move, [None] at either
    [continue] (no move extracted from the line, or [move] throws). *)
Definition fenAfterBestOf (rec : MoveRecord) (bestMoveLine : string) : option string :=
  match matchBestMove bestMoveLine with
  | None => None
  | Some bestMoveUci =>
      let from := slice 0 2 bestMoveUci in
      let to := slice 2 4 bestMoveUci in
      let promotion :=
        if (4 <? String.length bestMoveUci)%nat then String.get 4 bestMoveUci else None in
      applyMove (fromFen rec) from to promotion
  end.

(** The body of the loop of [analyze] for the record at index [i]: [None]
    is a [continue] (the move is not scored). *)
Definition scoreRecord (i : nat) (rec : MoveRecord) : M (option MoveScore) :=
  bestMoveLine <- requestBestMove rec ;;
  match fenAfterBestOf rec bestMoveLine with
  | None => ret None
  | Some fenAfterBest =>
      evalBest <- evalPosition fenAfterBest depth ;;
      evalPlayed <- evalPosition (toFen rec) depth ;;
      let cpl := centipawnLoss (turnBefore rec) evalBest evalPlayed in
      let moveScore := cplToMoveScore cpl in
      ret (Some (mkMoveScore (i + 1) (moveSan rec) cpl moveScore))
  end.

(** [for (let i = 0; i < moveRecords.length; i++)], from index [i] on, with
    the scores pushed so far. *)
Fixpoint scoreMoves (recs : list MoveRecord) (i : nat) (moveScores : list MoveScore)
  : M (list MoveScore) :=
  match recs with
  | [] => ret moveScores
  | rec :: rest =>
      r <- scoreRecord i rec ;;
      match r with
      | Some ms => scoreMoves rest (S i) (moveScores ++ [ms])
      | None => scoreMoves rest (S i) moveScores
      end
  end.

(** [analyze(pgn, depth)], from the point where the move records have been
    built from the game. *)
Definition analyze (moveRecords : list MoveRecord) : M float :=
  newEngine ;;
  sleep 200 ;;
  send "isready" ;;
  _ <- waitForLineMatching (fun l => l =? "readyok") 5000 ;;
  moveScores <- scoreMoves moveRecords 0 [] ;;
  quit ;;
  ret (accuracyPct moveScores).

End Analyze.

(** Lines 158-165 of [analyze] on their own: start the engine and wait
    until it is ready. *)
Definition startEngine : M string :=
  newEngine ;;
  sleep 200 ;;
  send "isready" ;;
  waitForLineMatching (fun l => l =? "readyok") 5000.

(** A session that has done nothing yet and will receive [lines]. *)
Definition fresh (lines : list string) : session := mkSession lines [].

(* ------------------------------------------------------------------ *)
(** ** Vocabulary of the statements *)

(** Decimal text of an integer: a minus sign for negative numbers, then the
    digits without leading zeros. *)
Definition showZ (z : Z) : string := NilZero.string_of_int (Z.to_int z).

(** Every character of [s] satisfies [f]. *)
Fixpoint allChars (f : ascii -> bool) (s : string) : bool :=
  match s with
  | String c t => f c && allChars f t
  | EmptyString => true
  end.

Definition beginsWithDigit (s : string) : bool :=
  match s with
  | String c _ => isDigit c
  | EmptyString => false
  end.

(** The anchored pattern [at_] matches at none of the first [n] positions
    of [s]. *)
Fixpoint noneBefore {A : Type} (at_ : string -> option A) (n : nat) (s : string) : bool :=
  match n with
  | O => true
  | S n' =>
      match at_ s with
      | Some _ => false
      | None =>
          match s with
          | String _ t => noneBefore at_ n' t
          | EmptyString => true
          end
      end
  end.

(** An evaluation seen from the mover: the sign is flipped for the second
    player. *)
Definition persp (turn : color) (eval : Z) : Z :=
  match turn with White => eval | Black => - eval end.

(** The score of the last line of [lines] that parses as a score
    announcement. *)
Fixpoint lastAnnounced (lines : list string) : option Z :=
  match lines with
  | [] => None
  | line :: rest =>
      match lastAnnounced rest with
      | Some v => Some v
      | None => parseScoreFromInfoLine line
      end
  end.

(** The default of an absent score. *)
Definition orZero (o : option Z) : Z :=
  match o with Some v => v | None => 0 end.

(** *** Requests in flight

    A monitor of the log: how many searches have been started by a [go]
    command and not yet ended by a consumed best-move line, and how many
    handlers occupy the [onLine] slot. *)
Record monitor : Type := mkMonitor {
  inFlight : Z;
  waiters : Z
}.

Definition idle : monitor := mkMonitor 0 0.

(** The commands of a search request: the [position] and [go] pair. *)
Definition isRequest (cmd : string) : bool :=
  startsWith cmd "position" || startsWith cmd "go".

Definition observe1 (m : monitor) (e : event) : monitor :=
  match e with
  | Write cmd =>
      if startsWith cmd "go" then mkMonitor (inFlight m + 1) (waiters m) else m
  | SetOnLine _ => mkMonitor (inFlight m) (waiters m + 1)
  | Resolve line =>
      mkMonitor (if startsWith line "bestmove" then inFlight m - 1 else inFlight m)
                (waiters m - 1)
  | Reject _ => mkMonitor (inFlight m) (waiters m - 1)
  | Spawn _ | Sleep _ => m
  end.

Definition observe (m : monitor) (l : list event) : monitor := fold_left observe1 l m.

(** What the discipline allows next: a request command only when no search
    is in flight, a handler only into an empty slot. *)
Definition permitted (m : monitor) (e : event) : bool :=
  match e with
  | Write cmd => if isRequest cmd then (inFlight m =? 0)%Z else true
  | SetOnLine _ => (waiters m =? 0)%Z
  | _ => true
  end.

Definition bounded (m : monitor) : bool :=
  ((0 <=? inFlight m)%Z && (inFlight m <=? 1)%Z)
  && ((0 <=? waiters m)%Z && (waiters m <=? 1)%Z).

(** The whole log respects the discipline, state by state. *)
Fixpoint serialized (m : monitor) (l : list event) : bool :=
  bounded m &&
  match l with
  | [] => true
  | e :: l' => permitted m e && serialized (observe1 m e) l'
  end.

(** *** The shape of the log

    One search: the two commands, the handler, and either the best-move line
    that ends it ([true]) or the timer ([false]). *)
Inductive searchTrace (depth : N) : bool -> list event -> Prop :=
| search_done (fen line : string) :
    startsWith line "bestmove" = true ->
    searchTrace depth true
      [Write ("position fen " ++ fen); Write ("go depth " ++ showN depth);
       SetOnLine 60000; Resolve line]
| search_timeout (fen msg : string) :
    searchTrace depth false
      [Write ("position fen " ++ fen); Write ("go depth " ++ showN depth);
       SetOnLine 60000; Reject msg].

(** Searches one after the other; only the last one may time out. *)
Inductive searchesTrace (depth : N) : bool -> list event -> Prop :=
| searches_none : searchesTrace depth true []
| searches_more (t ts : list event) (b : bool) :
    searchTrace depth true t -> searchesTrace depth b ts ->
    searchesTrace depth b (t ++ ts)
| searches_timeout (t : list event) :
    searchTrace depth false t -> searchesTrace depth false t.

Definition isOk {A : Type} (r : result A) : bool :=
  match r with Ok _ => true | Err _ => false end.

(** *** Exact values

    The rational number a finite float stands for. *)
Definition exactValue (f : float) : Q :=
  match Prim2SF f with
  | S754_finite s m e =>
      let mag := (inject_Z (Z.pos m) * Qpower 2 e)%Q in
      if s then (- mag)%Q else mag
  | _ => 0%Q
  end.

Definition exactSum (xs : list float) : Q :=
  fold_right (fun x acc => (exactValue x + acc)%Q) 0%Q xs.

(** The mean of the exact values, times 100. *)
Definition exactMeanPct (xs : list float) : Q :=
  (100 * (exactSum xs / inject_Z (Z.of_nat (List.length xs))))%Q.

(** *** Sample data for closed statements *)

(** A chess library that applies every move and leaves the position text
    unchanged. *)
Definition lenientChess : ChessLib :=
  {| applyMove := fun fen _ _ _ => Some fen |}.

(** A chess library that refuses every move. *)
Definition refusingChess : ChessLib :=
  {| applyMove := fun _ _ _ _ => None |}.

Definition sampleRecord : MoveRecord :=
  mkMoveRecord "e4" "rnbqkbnr/pppppppp/8/8/8/8/PPPPPPPP/RNBQKBNR w KQkq - 0 1"
               "rnbqkbnr/pppppppp/8/8/4P3/8/PPPP1PPP/RNBQKBNR b KQkq e3 0 1" White.

(** What the engine prints for one move that loses 300 centipawns: the
    best move, then the two evaluations. *)
Definition blunderLines : list string :=
  ["bestmove d2d4 ponder d7d5";
   "info depth 18 score cp 300 nodes 1000"; "bestmove d7d5";
   "info depth 18 score cp 0 nodes 1000"; "bestmove e7e5"].

(** The sum of a sequence of numbers in the arithmetic of the source: taken
    from the left, starting at 0. *)
Definition sumOf (xs : list float) : float := fold_left PrimFloat.add xs 0%float.

(** *** The sums an analysis can reach

    The scores of the table, and the set of the sums of [n] of them, as
    [accuracyPct] adds them: an increasing list without repetition.  The
    functions run through long lists and keep their result in an
    accumulator. *)
Definition scoreTable : list float :=
  [1.0; 0.95; 0.80; 0.60; 0.30; 0.10]%float.

(** Union of two increasing lists, after [acc] reversed. *)
Fixpoint mergeSums (l1 : list float) : list float -> list float -> list float :=
  match l1 with
  | [] => fun l2 acc => rev_append acc l2
  | a :: l1' =>
      fix inner (l2 acc : list float) : list float :=
        match l2 with
        | [] => rev_append acc l1
        | b :: l2' =>
            if PrimFloat.Leibniz.eqb a b then mergeSums l1' l2' (a :: acc)
            else if (a <? b)%float then mergeSums l1' l2 (a :: acc)
            else inner l2' (b :: acc)
        end
  end.

(** The sums with [x] added, a value equal to the one before it dropped,
    in reverse order in front of [acc]. *)
Fixpoint shiftSums (x : float) (sums acc : list float) : list float :=
  match sums with
  | [] => acc
  | s :: rest =>
      let y := (s + x)%float in
      match acc with
      | z :: _ =>
          if PrimFloat.Leibniz.eqb y z then shiftSums x rest acc
          else shiftSums x rest (y :: acc)
      | [] => shiftSums x rest [y]
      end
  end.

(** The sums of one more score. *)
Definition nextSums (sums : list float) : list float :=
  fold_left (fun acc x => mergeSums (rev_append (shiftSums x sums []) []) acc [])
            scoreTable [].

(** The percentage made of a sum of [n] scores. *)
Definition pctOf (n : nat) (sum : float) : float :=
  (sum / numberOfNat n * 100)%float.

(** Check [ok] on the percentages of all sums of [n + 1], ..., [n + fuel]
    scores, given the sums of [n] scores. *)
Fixpoint checkSums (ok : nat -> float -> bool) (fuel n : nat) (sums : list float) : bool :=
  match fuel with
  | O => true
  | S fuel' =>
      let sums' := nextSums sums in
      if forallb (fun sum => ok (S n) (pctOf (S n) sum)) sums'
      then checkSums ok fuel' (S n) sums'
      else false
  end.

(** The bounds of the accuracy of [n] scored moves: at most 100 always, at
    least 10 up to 47 moves, and at least 9.999999999999 beyond. *)
Definition accuracyBounds (n : nat) (pct : float) : bool :=
  ((9.999999999999 <=? pct) && (pct <=? 100)
   && (if (n <=? 47)%nat then 10 <=? pct else true))%float.

(** *** The engine process

    What the log says about the process.  The session acts on the process
    in two ways only: it starts it ([Spawn]) and it writes commands to it;
    the source never calls [kill] and never looks at the process, so there
    is no event for either.  An engine leaves on its own account when it
    has read ["quit"], after the time it needs for that: [exitDelay] is
    that time in milliseconds, [None] for an engine that does not leave.
    After the quit command the source only sleeps, so the time passed since
    then is the time slept. *)
Definition isSpawn (e : event) : bool :=
  match e with Spawn _ => true | _ => false end.

(** The time slept during [l], in milliseconds. *)
Fixpoint slept (l : list event) : Z :=
  match l with
  | [] => 0
  | Sleep ms :: l' => ms + slept l'
  | _ :: l' => slept l'
  end.

(** The time slept since the first quit command, if one was written. *)
Fixpoint sinceQuit (l : list event) : option Z :=
  match l with
  | [] => None
  | Write cmd :: l' => if cmd =? "quit" then Some (slept l') else sinceQuit l'
  | _ :: l' => sinceQuit l'
  end.

(** The process has been started and has not left. *)
Definition processRunning (exitDelay : option Z) (l : list event) : bool :=
  existsb isSpawn l
  && negb match sinceQuit l, exitDelay with
          | Some t, Some d => (d <=? t)%Z
          | _, _ => false
          end.

(** *** The token of a best-move line

    The text after ["bestmove"] and the white space that follows it, up to
    the next white space. *)
Definition tokenOf (line : string) : string :=
  match stripPrefix "bestmove" line with
  | Some r0 => fst (span (fun c => negb (isSpace c)) (snd (span isSpace r0)))
  | None => EmptyString
  end.

(** A square: a file and a rank. *)
Definition isSquare (s : string) : bool :=
  match s with
  | String f (String r EmptyString) => isFile f && isRank r
  | _ => false
  end.

(** The token is a coordinate move: file, rank, file, rank, and possibly a
    promotion letter. *)
Definition isCoordinateMove (token : string) : bool :=
  match token with
  | String c1 (String c2 (String c3 (String c4 rest))) =>
      isFile c1 && isRank c2 && isFile c3 && isRank c4
      && match rest with
         | EmptyString => true
         | String c5 EmptyString => isPromo c5
         | _ => false
         end
  | _ => false
  end.

(** The token is file, rank, file, rank and then a character that is
    neither a letter, a digit nor an underscore, as in ["e2e4+"]: no engine
    output, and read by the pattern as the move before that character. *)
Definition moveThenPunctuation (token : string) : bool :=
  match token with
  | String c1 (String c2 (String c3 (String c4 (String c5 _)))) =>
      isFile c1 && isRank c2 && isFile c3 && isRank c4 && negb (isWordChar c5)
  | _ => false
  end.

(** The token begins with a file, a rank and a file. *)
Definition beginsWithStem (token : string) : bool :=
  match token with
  | String c1 (String c2 (String c3 _)) => isFile c1 && isRank c2 && isFile c3
  | _ => false
  end.

(** A chess library moves between squares only: it refuses a move whose
    destination is not a square. *)
Definition movesBetweenSquares (chess : ChessLib) : Prop :=
  forall fen from to promotion,
    isSquare to = false -> applyMove fen from to promotion = None.

(** A chess library that applies every move between two squares and leaves
    the position text unchanged. *)
Definition squaresChess : ChessLib :=
  {| applyMove := fun fen from to _ =>
                    if isSquare from && isSquare to then Some fen else None |}.

(** Every score a line of [lines] announces has magnitude at most
    [bound]. *)
Definition announcedWithin (bound : Z) (lines : list string) : bool :=
  forallb (fun line => match parseScoreFromInfoLine line with
                       | Some v => (Z.abs v <=? bound)%Z
                       | None => true
                       end) lines.

(* ------------------------------------------------------------------ *)
(** ** The output stream of the engine (the [data] handler, lines 26-33) *)

Module Stream.

(** The line feed. *)
Definition LF : ascii := "010"%char.

(** [s.split("\n")]: the pieces between line feeds; never empty. *)
Fixpoint splitLF (s : string) : list string :=
  match s with
  | EmptyString => [EmptyString]
  | String c t =>
      if Ascii.eqb c LF then EmptyString :: splitLF t
      else
        match splitLF t with
        | piece :: rest => String c piece :: rest
        | [] => [String c EmptyString]
        end
  end.

(** [lines.pop() ?? ""]: the list without its last piece, and that piece. *)
Definition popLast (lines : list string) : list string * string :=
  (removelast lines, last lines EmptyString).

(** [s.trimStart()] and [s.trimEnd()]; white space and line terminators
    below 256 are the characters of [\s]. *)
Fixpoint trimStart (s : string) : string :=
  match s with
  | String c t => if isSpace c then trimStart t else s
  | EmptyString => EmptyString
  end.

Fixpoint trimEnd (s : string) : string :=
  match s with
  | EmptyString => EmptyString
  | String c t =>
      match trimEnd t with
      | EmptyString => if isSpace c then EmptyString else String c EmptyString
      | t' => String c t'
      end
  end.

(** [s.trim()] *)
Definition trim (s : string) : string := trimEnd (trimStart s).

(** The first two statements of the handler: append the chunk to the
    buffer, split, keep the last piece as the new buffer.  The result is
    the complete lines and the new buffer. *)
Definition feed (buffer chunk : string) : list string * string :=
  popLast (splitLF (buffer ++ chunk)).

Section Handler.

Variables St A : Type.

(** The handler in the [onLine] slot, as in [Uci.deliver]: a step on its
    captured state that may resolve the pending promise. *)
Variable h : St -> string -> St * option A.

(** The fields of [UciEngine] the [data] handler works on; [onLine] holds
    the state of the installed handler, [None] for [null]. *)
Record engine : Type := mkEngine {
  buffer : string;
  onLine : option St
}.

(** [for (const line of lines) { if (this.onLine) this.onLine(line.trim()); }]
    A handler that resolves clears the slot itself; the code that awaits
    the promise runs only after the loop, so the lines left in the loop
    find the slot empty. *)
Fixpoint forEachLine (lines : list string) (slot : option St) (resolved : option A)
  : option St * option A :=
  match lines with
  | [] => (slot, resolved)
  | line :: rest =>
      match slot with
      | Some st =>
          let (st', r) := h st (trim line) in
          match r with
          | Some a => forEachLine rest None (Some a)
          | None => forEachLine rest (Some st') resolved
          end
      | None => forEachLine rest None resolved
      end
  end.

(** [proc.stdout.on("data", chunk => ...)]: the engine after the chunk, and
    the value the pending promise was resolved with, if it was. *)
Definition onData (chunk : string) (e : engine) : engine * option A :=
  let (lines, buffer') := feed (buffer e) chunk in
  let (slot, resolved) := forEachLine lines (onLine e) None in
  (mkEngine buffer' slot, resolved).

End Handler.

End Stream.

(** [s] contains the character [c]. *)
Fixpoint hasChar (c : ascii) (s : string) : bool :=
  match s with
  | String d t => Ascii.eqb d c || hasChar c t
  | EmptyString => false
  end.

(** The lines, each followed by a line feed, then [tail]. *)
Fixpoint joinLF (lines : list string) (tail : string) : string :=
  match lines with
  | [] => tail
  | l :: rest => (l ++ String Stream.LF (joinLF rest tail))%string
  end.

(** The last character of [s] is white space. *)
Fixpoint endsWithSpace (s : string) : bool :=
  match s with
  | EmptyString => false
  | String c EmptyString => isSpace c
  | String _ t => endsWithSpace t
  end.

Definition beginsWithSpace (s : string) : bool :=
  match s with
  | String c _ => isSpace c
  | EmptyString => false
  end.

(** The number of [go] commands in a log: the searches started. *)
Fixpoint countGo (l : list event) : nat :=
  match l with
  | [] => 0
  | Write cmd :: l' => if startsWith cmd "go" then S (countGo l') else countGo l'
  | _ :: l' => countGo l'
  end.

(** [count] scores of 1.0 added to [sum], one more at a time: each time the
    percentage made of the sum is exactly 100.  [n] is the number of scores
    already in [sum]. *)
Fixpoint checkPerfect (count : nat) (n : Z) (sum : float) : bool :=
  match count with
  | O => true
  | S count' =>
      let sum' := (sum + 1.0)%float in
      PrimFloat.Leibniz.eqb
        (sum' / PrimFloat.of_uint63 (Uint63.of_Z (n + 1)) * 100)%float 100%float
      && checkPerfect count' (n + 1) sum'
  end.

(** The line [pre ++ "score mate N" ++ post] announces mate [N] and nothing
    before it: it has no centipawn announcement, no mate announcement
    starts inside [pre], and no digit follows the number. *)
Definition announcesMate (pre post : string) (N : Z) : bool :=
  let line := (pre ++ "score mate " ++ showZ N ++ post)%string in
  match search (matchLitIntAt "score cp ") line with
  | Some _ => false
  | None =>
      noneBefore (matchLitIntAt "score mate ") (String.length pre) line
      && negb (beginsWithDigit post)
  end.

(* ------------------------------------------------------------------ *)
(** ** The report on a game against the history ([generateReport] and the
       functions it calls) *)

Module Report.

(** [type GameRecord] *)
Record GameRecord : Type := mkGameRecord {
  date : string;      (* ISO string *)
  accuracy : float;   (* 0-100 *)
  rating : float      (* Elo at time of game *)
}.

(** [const MAX_HISTORY] *)
Definition MAX_HISTORY : nat := 100.

(** The number formatting of the language, which is not part of this
    repository: [x.toFixed(1)] and the text of a number in a template
    literal. *)
Class NumberFormat : Type := {
  toFixed1 : float -> string;
  numberToString : float -> string
}.

(** [computeMeanAccuracy(games)] *)
Definition computeMeanAccuracy (games : list GameRecord) : float :=
  match games with
  | [] => 0%float
  | _ =>
      let sum := fold_left (fun acc g => (acc + accuracy g)%float) games 0%float in
      (sum / numberOfNat (List.length games))%float
  end.

(** [performanceLabel(diff)]; [diff >= 10] is [10 <= diff], false when
    [diff] is not a number. *)
Definition performanceLabel (diff : float) : string :=
  if (10 <=? diff)%float then "Excellent"
  else if (5 <=? diff)%float then "Great"
  else if (2 <=? diff)%float then "Good"
  else if (-2 <? diff)%float then "Fair"
  else if (-5 <? diff)%float then "Bad"
  else if (-10 <? diff)%float then "Awful"
  else "Terrible".

Section Summary.

Context {fmt : NumberFormat}.

(** The first part of [verbalSummaryForHome]: how far from the average. *)
Definition diffTextOf (diff : float) : string :=
  let absDiff := toFixed1 (PrimFloat.abs diff) in
  if (10 <=? diff)%float then "over 10% above your recent average"
  else if (diff <=? -10)%float then "over 10% below your recent average"
  else if (0 <? diff)%float then absDiff ++ "% above your recent average"
  else if (diff <? 0)%float then absDiff ++ "% below your recent average"
  else "exactly at your recent average".

(** [verbalSummaryForHome(label, diff, accuracy)] *)
Definition verbalSummaryForHome (label : string) (diff accuracy : float) : string :=
  let diffText := diffTextOf diff in
  let rest := ("Your accuracy was " ++ numberToString accuracy ++ ", which is "
               ++ diffText ++ ".")%string in
  if label =? "Excellent" then "Amazing! You played an excellent game. " ++ rest
  else if label =? "Great" then "Great job! You played a great game. " ++ rest
  else if label =? "Good" then "Nice work! You played a good game. " ++ rest
  else if label =? "Fair" then "You played a fair game. " ++ rest
  else if label =? "Bad" then "Hmm, you played a bad game. " ++ rest
  else if label =? "Awful" then "Ouch, that was an awful game. " ++ rest
  else if label =? "Terrible" then "Yikes! You played a terrible game. " ++ rest
  else "Your game performance was " ++ label ++ ". " ++ rest.

(** [generateReport(accuracy, rating)], given what [loadHistory()] returned
    and the date [new Date().toISOString()]: the history handed to
    [saveHistory] and the summary returned. *)
Definition generateReport (history : list GameRecord) (now : string)
           (accuracy rating : float) : list GameRecord * string :=
  let newGame := mkGameRecord now accuracy rating in
  let history' := newGame :: history in
  let trimmedHistory := firstn MAX_HISTORY history' in
  let meanAccuracy := computeMeanAccuracy trimmedHistory in
  let diff := (accuracy - meanAccuracy)%float in
  let label := performanceLabel diff in
  (trimmedHistory, verbalSummaryForHome label diff accuracy).

End Summary.

End Report.

(** The labels from worst to best, and the place of a label among them. *)
Definition labelsWorstFirst : list string :=
  ["Terrible"; "Awful"; "Bad"; "Fair"; "Good"; "Great"; "Excellent"].

Fixpoint placeIn (labels : list string) (label : string) : nat :=
  match labels with
  | [] => 0
  | l :: rest => if l =? label then 0 else S (placeIn rest label)
  end.

(** The sentences a summary can open with, one per label. *)
Definition summaryOpenings : list string :=
  ["Amazing! You played an excellent game. ";
   "Great job! You played a great game. ";
   "Nice work! You played a good game. ";
   "You played a fair game. ";
   "Hmm, you played a bad game. ";
   "Ouch, that was an awful game. ";
   "Yikes! You played a terrible game. "].

(* ------------------------------------------------------------------ *)
(** ** The latest game of the month ([latest.ts]) *)

Module Latest.

(** A value read by [res.json()]. *)
Inductive json : Type :=
| JNull
| JBool (b : bool)
| JNumber (x : float)
| JString (s : string)
| JArray (items : list json)
| JObject (fields : list (string * json)).

(** What a statement throws. *)
Inductive thrown : Type :=
| ErrorMessage (msg : string)     (* [throw new Error(msg)] *)
| TypeError                       (* a property of [null], or a call of what is no function *)
| SyntaxError.                    (* [res.json()] on a body that is not JSON *)

(** The own property [key] of a parsed object. *)
Fixpoint lookup (key : string) (fields : list (string * json)) : option json :=
  match fields with
  | [] => None
  | (k, v) :: rest => if k =? key then Some v else lookup key rest
  end.

(** [!v] is [negb (truthy v)]. *)
Definition truthy (v : json) : bool :=
  match v with
  | JNull => false
  | JBool b => b
  | JNumber x => negb ((x =? 0)%float || is_nan x)
  | JString s => negb (s =? "")
  | JArray _ | JObject _ => true
  end.

(** [isGamesResponse(obj)]: an object (arrays have no property [games])
    whose property [games] is an array. *)
Definition isGamesResponse (obj : json) : bool :=
  if negb (truthy obj) then false
  else
    match obj with
    | JObject fields =>
        match lookup "games" fields with
        | Some (JArray _) => true
        | _ => false
        end
    | _ => false
    end.

(** [v.key] for the keys the code reads ([url], [white], [black], [pgn]),
    which no prototype defines: [None] is [undefined]. *)
Definition member (key : string) (v : json) : thrown + option json :=
  match v with
  | JNull => inl TypeError
  | JObject fields => inr (lookup key fields)
  | _ => inr None
  end.

(** [p?.slice(0, 500) ?? "(no pgn)"], evaluated for the log: only strings
    and arrays have a [slice] to call. *)
Definition sliceForLog (p : option json) : thrown + unit :=
  match p with
  | None | Some JNull => inr tt
  | Some (JString _) | Some (JArray _) => inr tt
  | Some _ => inl TypeError
  end.

(** What [fetch] resolved with; [body] is [None] when the body is not
    JSON. *)
Record response : Type := mkResponse {
  ok : bool;
  status : N;
  statusText : string;
  body : option json
}.

(** [getLatestGame()], from the response of the request on. *)
Definition getLatestGame (res : response) : thrown + json :=
  if negb (ok res) then
    inl (ErrorMessage ("Chess.com API returned " ++ showN (status res) ++ " "
                       ++ statusText res))
  else
    match body res with
    | None => inl SyntaxError
    | Some raw =>
        if negb (isGamesResponse raw) then
          inl (ErrorMessage "Unexpected response shape from Chess.com API")
        else
          let games :=
            match raw with
            | JObject fields =>
                match lookup "games" fields with
                | Some (JArray games) => games
                | _ => []
                end
            | _ => []
            end in
          match games with
          | [] => inr (JString "")
          | _ =>
              let latest := last games JNull in
              match member "url" latest with
              | inl e => inl e
              | inr _ =>
                  match member "pgn" latest with
                  | inl e => inl e
                  | inr pgn =>
                      match sliceForLog pgn with
                      | inl e => inl e
                      | inr _ =>
                          match pgn with
                          | Some p =>
                              if truthy p then inr p
                              else inl (ErrorMessage
                                          "Unexpected response shape from Chess.com API")
                          | None =>
                              inl (ErrorMessage
                                     "Unexpected response shape from Chess.com API")
                          end
                      end
                  end
              end
          end
    end.

End Latest.

(* ------------------------------------------------------------------ *)
(** ** Strings: facts about the matching functions *)

Lemma stripPrefix_app (p s : string) : stripPrefix p (p ++ s) = Some s.
Proof.
  induction p as [|a p IH]; simpl; [reflexivity|].
  now rewrite Ascii.eqb_refl.
Qed.

Lemma search_skip {A : Type} (at_ : string -> option A) (pre rest : string) :
  noneBefore at_ (String.length pre) (pre ++ rest) = true ->
  search at_ (pre ++ rest) = search at_ rest.
Proof.
  induction pre as [|c pre IH]; simpl; [reflexivity|].
  destruct (at_ (String c (pre ++ rest))) eqn:E; [discriminate|].
  intros H. destruct (pre ++ rest)%string eqn:E'; rewrite <- E' in *; auto.
Qed.

Lemma span_fst_all (f : ascii -> bool) (s : string) :
  allChars f (fst (span f s)) = true.
Proof.
  induction s as [|c s IH]; cbn [span]; [reflexivity|].
  destruct (f c) eqn:E; [|reflexivity].
  destruct (span f s) as [a b]. cbn [fst allChars] in *. now rewrite E.
Qed.

(** What the group [(-?\d+)] captures: a run of digits that is not empty,
    after an optional minus sign. *)
Lemma captureInt_shape (s t : string) :
  captureInt s = Some t ->
  exists ds, (t = ds \/ t = String "-"%char ds)
             /\ ds <> EmptyString /\ allChars isDigit ds = true.
Proof.
  unfold captureInt. intros H.
  assert (G : forall u, match fst (span isDigit u) with
                        | EmptyString => None
                        | ds => Some ds
                        end = Some t ->
                        t <> EmptyString /\ allChars isDigit t = true).
  { intros u Hu. pose proof (span_fst_all isDigit u) as Ha.
    destruct (fst (span isDigit u)); [discriminate|].
    inversion Hu; subst. split; [discriminate | exact Ha]. }
  destruct s as [|c s].
  - discriminate H.
  - destruct (Ascii.eqb_spec c "-"%char) as [->|Hc].
    + pose proof (span_fst_all isDigit s) as Ha.
      destruct (fst (span isDigit s)) as [|d ds]; [discriminate|].
      inversion H; subst. exists (String d ds). split; [now right|].
      split; [discriminate | exact Ha].
    + assert (H' : match fst (span isDigit (String c s)) with
                   | EmptyString => None
                   | ds => Some ds
                   end = Some t).
      { destruct c as [[] [] [] [] [] [] [] []]; try exact H. now elim Hc. }
      destruct (G (String c s) H'). exists t. auto.
Qed.

(** *** Decimal text and [parseInt] *)

Lemma span_digits_uint (d : Decimal.uint) (post : string) :
  beginsWithDigit post = false ->
  span isDigit (NilEmpty.string_of_uint d ++ post) = (NilEmpty.string_of_uint d, post).
Proof.
  intros Hp. induction d; simpl;
    try (rewrite IHd; reflexivity).
  destruct post as [|c post]; [reflexivity|].
  simpl in Hp. simpl. now rewrite Hp.
Qed.

(** One digit of [NilEmpty.string_of_uint] read by [digitsValue]. *)
Ltac read_digit :=
  cbn [NilEmpty.string_of_uint digitsValue Pos.of_uint_acc Pos.of_uint];
  match goal with
  | |- context [isDigit ?c] => change (isDigit c) with true
  end;
  cbv iota;
  match goal with
  | |- context [digitVal ?c] =>
      let v := eval vm_compute in (digitVal c) in change (digitVal c) with v
  end.

Lemma digitsValue_acc_uint (d : Decimal.uint) (acc : positive) :
  digitsValue (Z.pos acc) (NilEmpty.string_of_uint d) = Z.pos (Pos.of_uint_acc d acc).
Proof.
  revert acc. induction d; intros acc; [reflexivity | ..]; read_digit;
    match goal with
    | |- digitsValue ?a _ = Z.pos (Pos.of_uint_acc _ ?b) =>
        replace a with (Z.pos b) by lia
    end; apply IHd.
Qed.

Lemma digitsValue_uint (d : Decimal.uint) :
  digitsValue 0 (NilEmpty.string_of_uint d) = Z.of_N (Pos.of_uint d).
Proof.
  induction d; [reflexivity | ..]; read_digit; [exact IHd | ..];
    match goal with
    | |- digitsValue ?a _ = Z.of_N (N.pos (Pos.of_uint_acc _ ?b)) =>
        replace a with (Z.pos b) by lia
    end; apply digitsValue_acc_uint.
Qed.

Lemma uint_text_not_minus (d : Decimal.uint) (t : string) :
  NilEmpty.string_of_uint d <> String "-"%char t.
Proof. destruct d; simpl; congruence. Qed.

Lemma parseInt_unsigned (s : string) :
  (forall t, s <> String "-"%char t) -> parseInt s = digitsValue 0 s.
Proof.
  intros H. unfold parseInt.
  destruct s as [|c s]; [reflexivity|].
  destruct c as [[] [] [] [] [] [] [] []]; try reflexivity.
  exfalso. now apply (H s).
Qed.

Lemma parseInt_uint (d : Decimal.uint) :
  parseInt (NilZero.string_of_uint d) = Z.of_uint d.
Proof.
  unfold NilZero.string_of_uint, Z.of_uint.
  destruct d; try reflexivity;
    (rewrite parseInt_unsigned; [apply digitsValue_uint | apply uint_text_not_minus]).
Qed.

(** [parseInt] reads back the decimal text of every integer. *)
Lemma parseInt_showZ (z : Z) : parseInt (showZ z) = z.
Proof.
  unfold showZ. rewrite <- (DecimalZ.of_to z) at 2.
  destruct (Z.to_int z) as [d|d]; cbn [NilZero.string_of_int Z.of_int].
  - apply parseInt_uint.
  - change (parseInt (String "-" (NilZero.string_of_uint d)))
      with (- digitsValue 0 (NilZero.string_of_uint d)).
    f_equal. rewrite <- parseInt_uint. symmetry. apply parseInt_unsigned.
    intros t. unfold NilZero.string_of_uint.
    destruct d; try discriminate; apply uint_text_not_minus.
Qed.

Lemma uint_text_nonempty (d : Decimal.uint) : NilZero.string_of_uint d <> EmptyString.
Proof. destruct d; discriminate. Qed.

Lemma span_digits_text (d : Decimal.uint) (post : string) :
  beginsWithDigit post = false ->
  span isDigit (NilZero.string_of_uint d ++ post) = (NilZero.string_of_uint d, post).
Proof.
  intros Hp. unfold NilZero.string_of_uint.
  destruct d; try (apply span_digits_uint; assumption).
  change ("0" ++ post)%string with (NilEmpty.string_of_uint (Decimal.D0 Decimal.Nil) ++ post)%string.
  now apply span_digits_uint.
Qed.

(** The group [(-?\d+)] captures the whole decimal text of an integer when
    no digit follows it. *)
Lemma captureInt_showZ (z : Z) (post : string) :
  beginsWithDigit post = false ->
  captureInt (showZ z ++ post) = Some (showZ z).
Proof.
  intros Hp. unfold showZ.
  destruct (Z.to_int z) as [d|d]; cbn [NilZero.string_of_int].
  - unfold captureInt.
    pose proof (uint_text_nonempty d) as Hne.
    pose proof (span_digits_text d post Hp) as Hs.
    assert (Hm : forall t, (NilZero.string_of_uint d ++ post)%string <> String "-"%char t).
    { intros t. unfold NilZero.string_of_uint. destruct d; simpl; congruence. }
    destruct (NilZero.string_of_uint d ++ post)%string as [|c s] eqn:E.
    + destruct (NilZero.string_of_uint d); [congruence | discriminate].
    + rewrite Hs. cbn [fst].
      destruct c as [[] [] [] [] [] [] [] []];
        try (destruct (NilZero.string_of_uint d); [congruence | reflexivity]).
      exfalso. now apply (Hm s).
  - change (String "-" (NilZero.string_of_uint d) ++ post)%string
      with (String "-" (NilZero.string_of_uint d ++ post))%string.
    unfold captureInt. rewrite (span_digits_text d post Hp). cbn [fst].
    pose proof (uint_text_nonempty d).
    destruct (NilZero.string_of_uint d); [congruence | reflexivity].
Qed.

Lemma matchLitIntAt_showZ (lit : string) (z : Z) (post : string) :
  beginsWithDigit post = false ->
  matchLitIntAt lit (lit ++ showZ z ++ post) = Some (showZ z).
Proof.
  intros Hp. unfold matchLitIntAt. rewrite stripPrefix_app.
  now apply captureInt_showZ.
Qed.

Lemma search_found {A : Type} (at_ : string -> option A) (s : string) (r : A) :
  at_ s = Some r -> search at_ s = Some r.
Proof. intros H. destruct s; simpl; now rewrite H. Qed.

(* ------------------------------------------------------------------ *)
(** ** Score announcements ([parseScoreFromInfoLine]) *)

Lemma parseScore_cp (line cp : string) :
  search (matchLitIntAt "score cp ") line = Some cp ->
  parseScoreFromInfoLine line = Some (parseInt cp).
Proof. intros H. unfold parseScoreFromInfoLine. now rewrite H. Qed.

Lemma parseScore_mate (line m : string) :
  search (matchLitIntAt "score cp ") line = None ->
  search (matchLitIntAt "score mate ") line = Some m ->
  parseScoreFromInfoLine line =
    Some ((if parseInt m >=? 0 then 1 else -1) * (100000 - Z.abs (parseInt m))).
Proof. intros H1 H2. unfold parseScoreFromInfoLine. now rewrite H1, H2. Qed.

(** C2 as stated fails at the line announcing mate 0: the formula
    [sign(N) * (100000 - |N|)] gives 0 there, the code gives 100000. *)
Lemma parseScore_mate_zero_counterexample :
  parseScoreFromInfoLine "info depth 20 score mate 0 pv e2e4" = Some 100000
  /\ Z.sgn 0 * (100000 - Z.abs 0) = 0
  /\ parseScoreFromInfoLine "info depth 20 score mate 0 pv e2e4"
       <> Some (Z.sgn 0 * (100000 - Z.abs 0)).
Proof. split; [reflexivity | split; [reflexivity | discriminate]]. Qed.

(** C2, amended.  [N] is an integer a double holds exactly (magnitude at
    most 2^53; beyond that the source rounds [N]).  On a line whose first
    score announcement is ["score cp N"] the parsed score is [N]; on a line
    with no centipawn announcement whose first mate announcement is
    ["score mate N"] it is [s * (100000 - |N|)] with [s = 1] for [N >= 0]
    and [s = -1] for [N < 0]: this is [sign(N) * (100000 - |N|)] for every
    such [N] other than 0, and 100000 (not 0) for [N = 0]. *)
Theorem parseScore_announced (pre post : string) (N : Z) :
  safeInteger N = true ->
  beginsWithDigit post = false ->
  let cpLine := (pre ++ "score cp " ++ showZ N ++ post)%string in
  let mateLine := (pre ++ "score mate " ++ showZ N ++ post)%string in
  (noneBefore (matchLitIntAt "score cp ") (String.length pre) cpLine = true ->
   parseScoreFromInfoLine cpLine = Some N)
  /\ (search (matchLitIntAt "score cp ") mateLine = None ->
      noneBefore (matchLitIntAt "score mate ") (String.length pre) mateLine = true ->
      parseScoreFromInfoLine mateLine
        = Some ((if N >=? 0 then 1 else -1) * (100000 - Z.abs N))
      /\ (N <> 0 -> parseScoreFromInfoLine mateLine = Some (Z.sgn N * (100000 - Z.abs N)))
      /\ (N = 0 -> parseScoreFromInfoLine mateLine = Some 100000)).
Proof.
  intros _ Hp cpLine mateLine. split.
  - intros Hpre. subst cpLine.
    rewrite (parseScore_cp _ (showZ N)); [now rewrite parseInt_showZ|].
    rewrite search_skip by assumption.
    apply search_found. now apply matchLitIntAt_showZ.
  - intros Hcp Hpre.
    assert (E : parseScoreFromInfoLine mateLine
                = Some ((if N >=? 0 then 1 else -1) * (100000 - Z.abs N))).
    { rewrite (parseScore_mate _ (showZ N)); [now rewrite parseInt_showZ | assumption |].
      subst mateLine. rewrite search_skip by assumption.
      apply search_found. now apply matchLitIntAt_showZ. }
    rewrite E. repeat split.
    + intros HN. f_equal. destruct (Z.geb_spec N 0); [|].
      * rewrite Z.sgn_pos by lia. reflexivity.
      * rewrite Z.sgn_neg by lia. reflexivity.
    + intros ->. reflexivity.
Qed.

Lemma parseScore_announced_witness :
  parseScoreFromInfoLine "info depth 12 score cp 34 nodes 5" = Some 34
  /\ parseScoreFromInfoLine "info depth 20 score mate 3 pv e2e4" = Some 99997
  /\ parseScoreFromInfoLine "info depth 9 score mate -2 pv e2e4" = Some (-99998).
Proof.
  split; [|split].
  - exact (proj1 (parseScore_announced "info depth 12 " " nodes 5" 34 eq_refl eq_refl)
             eq_refl).
  - exact (proj1 (proj2 (parseScore_announced "info depth 20 " " pv e2e4" 3 eq_refl eq_refl)
                    eq_refl eq_refl)).
  - exact (proj1 (proj2 (parseScore_announced "info depth 9 " " pv e2e4" (-2) eq_refl eq_refl)
                    eq_refl eq_refl)).
Defined.

(* ------------------------------------------------------------------ *)
(** ** The loss-to-score table ([cplToMoveScore]) *)

Lemma cplToMoveScore_cases (c : Z) :
  (c <= 10 /\ cplToMoveScore c = 1.0%float)
  \/ (10 < c <= 30 /\ cplToMoveScore c = 0.95%float)
  \/ (30 < c <= 60 /\ cplToMoveScore c = 0.80%float)
  \/ (60 < c <= 100 /\ cplToMoveScore c = 0.60%float)
  \/ (100 < c <= 200 /\ cplToMoveScore c = 0.30%float)
  \/ (200 < c /\ cplToMoveScore c = 0.10%float).
Proof.
  unfold cplToMoveScore.
  destruct (Z.leb_spec c 10); [left; auto|].
  destruct (Z.leb_spec c 30); [right; left; split; [lia | reflexivity]|].
  destruct (Z.leb_spec c 60); [do 2 right; left; split; [lia | reflexivity]|].
  destruct (Z.leb_spec c 100); [do 3 right; left; split; [lia | reflexivity]|].
  destruct (Z.leb_spec c 200); [do 4 right; left; split; [lia | reflexivity]|].
  do 5 right. split; [lia | reflexivity].
Qed.

(** Every score of the table is at least 0.10 and at most 1. *)
Lemma cplToMoveScore_range (c : Z) :
  (0.10 <=? cplToMoveScore c)%float = true /\ (cplToMoveScore c <=? 1)%float = true.
Proof.
  destruct (cplToMoveScore_cases c) as [[_ E]|[[_ E]|[[_ E]|[[_ E]|[[_ E]|[_ E]]]]]];
    rewrite E; split; reflexivity.
Qed.

(** C7.  For every loss [c >= 0] the score lies in (0, 1], a larger loss
    never has a larger score, and the breakpoints are those of the table:
    1.00 up to 10, 0.95 up to 30, 0.80 up to 60, 0.60 up to 100, 0.30 up to
    200 and 0.10 beyond. *)
Theorem cplToMoveScore_step_function (c : Z) :
  0 <= c ->
  ((0 <? cplToMoveScore c)%float = true /\ (cplToMoveScore c <=? 1)%float = true)
  /\ (forall c', c <= c' -> (cplToMoveScore c' <=? cplToMoveScore c)%float = true)
  /\ (c <= 10 -> cplToMoveScore c = 1.0%float)
  /\ (10 < c <= 30 -> cplToMoveScore c = 0.95%float)
  /\ (30 < c <= 60 -> cplToMoveScore c = 0.80%float)
  /\ (60 < c <= 100 -> cplToMoveScore c = 0.60%float)
  /\ (100 < c <= 200 -> cplToMoveScore c = 0.30%float)
  /\ (200 < c -> cplToMoveScore c = 0.10%float).
Proof.
  intros _. split; [|split].
  - destruct (cplToMoveScore_cases c) as [[_ E]|[[_ E]|[[_ E]|[[_ E]|[[_ E]|[_ E]]]]]];
      rewrite E; split; reflexivity.
  - intros c' Hle.
    destruct (cplToMoveScore_cases c) as [[H E]|[[H E]|[[H E]|[[H E]|[[H E]|[H E]]]]]];
      destruct (cplToMoveScore_cases c') as [[H' E']|[[H' E']|[[H' E']|[[H' E']|[[H' E']|[H' E']]]]]];
      rewrite E, E'; try reflexivity; exfalso; lia.
  - repeat split; intros Hc;
      destruct (cplToMoveScore_cases c) as [[H E]|[[H E]|[[H E]|[[H E]|[[H E]|[H E]]]]]];
      try exact E; exfalso; lia.
Qed.

Lemma cplToMoveScore_step_function_witness :
  (cplToMoveScore 150 = 0.30%float)
  /\ (cplToMoveScore 250 <=? cplToMoveScore 150)%float = true.
Proof.
  pose proof (cplToMoveScore_step_function 150 ltac:(lia)) as H.
  split.
  - apply H. lia.
  - apply H. lia.
Defined.

(* ------------------------------------------------------------------ *)
(** ** The average ([accuracyPct]) *)

Lemma fold_left_scores (moveScores : list MoveScore) (acc : float) :
  fold_left (fun s m => (s + score m)%float) moveScores acc
  = fold_left PrimFloat.add (map score moveScores) acc.
Proof.
  revert acc. induction moveScores as [|m l IH]; intros acc; simpl; [reflexivity|].
  apply IH.
Qed.

(** *** The count as a number

    [moveScores.length] is an integer below 2^53, and the double that holds
    it is that integer: the integer shifted to 53 bits, with the exponent
    that undoes the shift. *)
Lemma digits2_pos_iter (m k : positive) :
  Z.pos (digits2_pos (Pos.iter xO m k)) = Z.pos (digits2_pos m) + Z.pos k.
Proof.
  revert m. induction k using Pos.peano_ind; intros m.
  - cbn. lia.
  - rewrite Pos.iter_succ. cbn [digits2_pos]. rewrite Pos2Z.inj_succ, IHk. lia.
Qed.

Lemma pos_iter_xO (m k : positive) : Z.pos (Pos.iter xO m k) = Z.pos m * 2 ^ Z.pos k.
Proof.
  revert m. induction k using Pos.peano_ind; intros m.
  - cbn. lia.
  - rewrite Pos.iter_succ, Pos2Z.inj_xO, IHk, Pos2Z.inj_succ, Z.pow_succ_r by lia. lia.
Qed.

Lemma digits2_pos_bound (m : positive) :
  2 ^ (Z.pos (digits2_pos m) - 1) <= Z.pos m < 2 ^ Z.pos (digits2_pos m).
Proof.
  induction m as [m IH|m IH|]; cbn [digits2_pos].
  - rewrite Pos2Z.inj_succ.
    replace (Z.succ (Z.pos (digits2_pos m)) - 1) with (Z.succ (Z.pos (digits2_pos m) - 1)) by lia.
    rewrite !Z.pow_succ_r by lia. lia.
  - rewrite Pos2Z.inj_succ.
    replace (Z.succ (Z.pos (digits2_pos m)) - 1) with (Z.succ (Z.pos (digits2_pos m) - 1)) by lia.
    rewrite !Z.pow_succ_r by lia. lia.
  - cbn. lia.
Qed.

(** Rounding leaves a mantissa that has its canonical exponent as it is. *)
Lemma binary_round_aux_canonical (sign : bool) (mz : positive) (ez : Z) :
  fexp prec emax (Z.pos (digits2_pos mz) + ez) = ez ->
  ez <= emax - prec ->
  binary_round_aux prec emax sign (Z.pos mz) ez loc_Exact = S754_finite sign mz ez.
Proof.
  intros Hf He. unfold binary_round_aux, shr_fexp. cbn [Zdigits2].
  rewrite Hf, Z.sub_diag.
  cbn [shr shr_record_of_loc shr_m loc_of_shr_record round_nearest_even Zdigits2].
  rewrite Hf, Z.sub_diag. cbn [shr shr_record_of_loc shr_m].
  apply Z.leb_le in He. now rewrite He.
Qed.

Lemma binary_normalize_small (m : positive) :
  Z.pos m < 2 ^ 53 ->
  exists mz ez, binary_normalize prec emax (Z.pos m) 0 false = S754_finite false mz ez
                /\ ez <= 0 /\ Z.pos mz = Z.pos m * 2 ^ (- ez).
Proof.
  intros Hm. pose proof (digits2_pos_bound m) as Hd.
  assert (Hd53 : Z.pos (digits2_pos m) <= 53).
  { destruct (Z.le_gt_cases (Z.pos (digits2_pos m)) 53) as [H|H]; [exact H|].
    exfalso.
    assert (2 ^ 53 <= 2 ^ (Z.pos (digits2_pos m) - 1)) by (apply Z.pow_le_mono_r; lia). lia. }
  unfold binary_normalize, binary_round. rewrite Z.add_0_r.
  assert (Hf : fexp prec emax (Z.pos (digits2_pos m)) = Z.pos (digits2_pos m) - 53).
  { unfold fexp, emin, prec, emax. lia. }
  rewrite Hf. unfold shl_align. rewrite Z.sub_0_r.
  destruct (Z.pos (digits2_pos m) - 53) as [|p|p] eqn:E; [| lia |].
  - exists m, 0. split; [|split; [lia|cbn; lia]].
    apply binary_round_aux_canonical; [|unfold emax, prec; lia].
    now rewrite Z.add_0_r, Hf.
  - exists (Pos.iter xO m p), (Z.neg p).
    split; [|split; [lia|]].
    + apply binary_round_aux_canonical; [|unfold emax, prec; lia].
      rewrite digits2_pos_iter. unfold fexp, emin, prec, emax. lia.
    + rewrite pos_iter_xO. reflexivity.
Qed.

(** A count below 2^53 as a number is that count. *)
Lemma exactValue_numberOfNat (n : nat) :
  Z.of_nat n < 2 ^ 53 ->
  (exactValue (numberOfNat n) == inject_Z (Z.of_nat n))%Q.
Proof.
  intros Hn. unfold numberOfNat, exactValue. rewrite of_uint63_spec, Uint63.of_Z_spec.
  rewrite Z.mod_small by (change Uint63.wB with (2 ^ 63); lia).
  destruct (Z.of_nat n) as [|m|m] eqn:En; [reflexivity | | lia].
  destruct (binary_normalize_small m Hn) as (mz & ez & -> & Hez & Hmz).
  rewrite Hmz, inject_Z_mult, Zpower_Qpower by lia.
  change (inject_Z 2) with 2%Q.
  rewrite <- Qmult_assoc, <- Qpower_plus by discriminate.
  replace (- ez + ez) with 0 by lia. cbn [Qpower]. ring.
Qed.

(** C3.  The accuracy of the empty sequence is 0.  The accuracy of a
    sequence that is not empty is the sum of its scores, added from the
    left starting at 0, divided by their count and multiplied by 100, in
    the arithmetic of the source; the count is in this division the number
    of scores exactly.  The scores 1.0, 0.8, 0.6 give exactly 80. *)
Theorem accuracyPct_mean (moveScores : list MoveScore) :
  Z.of_nat (List.length moveScores) < 2 ^ 53 ->
  let count := numberOfNat (List.length moveScores) in
  (exactValue count == inject_Z (Z.of_nat (List.length moveScores)))%Q
  /\ (moveScores <> [] ->
      accuracyPct moveScores = (sumOf (map score moveScores) / count * 100)%float)
  /\ (moveScores = [] -> accuracyPct moveScores = 0%float)
  /\ (forall i1 i2 i3 m1 m2 m3 c1 c2 c3,
         accuracyPct [mkMoveScore i1 m1 c1 1.0; mkMoveScore i2 m2 c2 0.8;
                      mkMoveScore i3 m3 c3 0.6] = 80.0%float).
Proof.
  intros Hlen count. split; [|split; [|split]].
  - now apply exactValue_numberOfNat.
  - intros Hne. destruct moveScores as [|m l]; [congruence|].
    unfold accuracyPct, sumOf. now rewrite fold_left_scores.
  - intros ->. reflexivity.
  - intros. reflexivity.
Qed.

Lemma accuracyPct_mean_witness :
  (exactValue (numberOfNat 2) == 2)%Q
  /\ accuracyPct [mkMoveScore 1 "e4" 0 1.0; mkMoveScore 2 "e5" 150 0.30]
     = ((0 + 1.0 + 0.30) / numberOfNat 2 * 100)%float.
Proof.
  pose proof (accuracyPct_mean [mkMoveScore 1 "e4" 0 1.0; mkMoveScore 2 "e5" 150 0.30]
                ltac:(cbn; lia)) as H.
  split.
  - exact (proj1 H).
  - exact (proj1 (proj2 H) ltac:(discriminate)).
Defined.

(* ------------------------------------------------------------------ *)
(** ** The session monad *)

Lemma bind_run {A B : Type} (m : M A) (k : A -> M B) (s : session) :
  bind m k s =
    match m s with
    | (Ok a, s1) => k a s1
    | (Err e, s1) => (Err e, s1)
    end.
Proof. reflexivity. Qed.

Lemma bind_ok {A B : Type} (m : M A) (k : A -> M B) (s s' : session) (b : B) :
  bind m k s = (Ok b, s') ->
  exists a s1, m s = (Ok a, s1) /\ k a s1 = (Ok b, s').
Proof.
  rewrite bind_run. destruct (m s) as [[a|e] s1]; [eauto | discriminate].
Qed.

Lemma bind_err {A B : Type} (m : M A) (k : A -> M B) (s s' : session) (e : error) :
  bind m k s = (Err e, s') ->
  m s = (Err e, s') \/ exists a s1, m s = (Ok a, s1) /\ k a s1 = (Err e, s').
Proof.
  rewrite bind_run. destruct (m s) as [[a|e0] s1]; [eauto | left; congruence].
Qed.

Lemma send_run (cmd : string) (s : session) :
  send cmd s = (Ok tt, mkSession (inbox s) (log s ++ [Write cmd])).
Proof. reflexivity. Qed.

(** What a wait leaves behind: the handler installed, then either the line
    that resolved it or the rejection, with the inbox advanced past the
    lines delivered. *)
Lemma awaitHandler_run {St A : Type} (h : St -> string -> St * option A) (st : St)
      (timeout : Z) (msg : string) (s : session) :
  awaitHandler h st timeout msg s =
    match deliver h st (inbox s) with
    | Some (a, line, rest) =>
        (Ok a, mkSession rest (log s ++ [SetOnLine timeout; Resolve line]))
    | None =>
        (Err (EngineError msg), mkSession [] (log s ++ [SetOnLine timeout; Reject msg]))
    end.
Proof.
  unfold awaitHandler. destruct (deliver h st (inbox s)) as [[[a line] rest]|];
    now rewrite <- app_assoc.
Qed.

Lemma deliver_matching (p : string -> bool) (lines : list string)
      (a line : string) (rest : list string) :
  deliver (fun (_ : unit) l => (tt, if p l then Some l else None)) tt lines
    = Some (a, line, rest) ->
  a = line /\ p line = true
  /\ exists skipped, lines = skipped ++ line :: rest
                     /\ forall l, In l skipped -> p l = false.
Proof.
  induction lines as [|l lines IH]; simpl; [discriminate|].
  destruct (p l) eqn:E.
  - intros H. inversion H; subst. repeat split; auto.
    exists []. split; [reflexivity | intros ? []].
  - intros H. destruct (IH H) as (-> & Hp & skipped & -> & Hs).
    repeat split; auto. exists (l :: skipped). split; [reflexivity|].
    intros l' [<-|Hin]; auto.
Qed.

Lemma deliver_eval_terminal (st : option Z) (lines : list string)
      (a : Z) (line : string) (rest : list string) :
  deliver evalHandler st lines = Some (a, line, rest) ->
  startsWith line "bestmove" = true.
Proof.
  revert st. induction lines as [|l lines IH]; intros st; simpl; [discriminate|].
  unfold evalHandler at 1.
  destruct (startsWith l "bestmove") eqn:E.
  - intros H. inversion H; subst. exact E.
  - apply IH.
Qed.

(* ------------------------------------------------------------------ *)
(** ** The shape of the log of an analysis *)

Lemma searchesTrace_app (depth : N) (b : bool) (t1 t2 : list event) :
  searchesTrace depth true t1 -> searchesTrace depth b t2 ->
  searchesTrace depth b (t1 ++ t2).
Proof.
  intros H1 H2. remember true as b1 eqn:Eb in H1.
  induction H1 as [|t ts b1 Ht Hts IH|t Ht]; subst.
  - exact H2.
  - rewrite <- app_assoc. apply searches_more; auto.
  - discriminate.
Qed.

Lemma searchesTrace_one (depth : N) (b : bool) (t : list event) :
  searchTrace depth b t -> searchesTrace depth b t.
Proof.
  destruct b; intros H.
  - rewrite <- (app_nil_r t). apply searches_more; [exact H | constructor].
  - now apply searches_timeout.
Qed.

Lemma evalPosition_trace (fen : string) (depth : N) (s s' : session) (r : result Z) :
  evalPosition fen depth s = (r, s') ->
  exists t, log s' = log s ++ t /\ searchTrace depth (isOk r) t.
Proof.
  unfold evalPosition. rewrite bind_run, send_run, bind_run, send_run, awaitHandler_run.
  cbn [inbox log].
  destruct (deliver evalHandler None (inbox s)) as [[[a line] rest]|] eqn:E;
    intros H; inversion H; subst; cbn [log isOk];
    repeat rewrite <- app_assoc; eexists; (split; [reflexivity|]).
  - apply search_done. eapply deliver_eval_terminal; eassumption.
  - apply search_timeout.
Qed.

Section Traces.

Context {chess : ChessLib}.
Variable depth : N.

Lemma requestBestMove_trace (rec : MoveRecord) (s s' : session) (r : result string) :
  requestBestMove depth rec s = (r, s') ->
  exists t, log s' = log s ++ t /\ searchTrace depth (isOk r) t.
Proof.
  unfold requestBestMove, waitForLineMatching.
  rewrite bind_run, send_run, bind_run, send_run, awaitHandler_run.
  cbn [inbox log].
  match goal with
  | |- context [deliver ?h tt (inbox s)] =>
      destruct (deliver h tt (inbox s)) as [[[a line] rest]|] eqn:E
  end;
    intros H; inversion H; subst; cbn [log isOk];
    repeat rewrite <- app_assoc; eexists; (split; [reflexivity|]).
  - apply search_done. now apply deliver_matching in E.
  - apply search_timeout.
Qed.

Lemma scoreRecord_trace (i : nat) (rec : MoveRecord) (s s' : session)
      (r : result (option MoveScore)) :
  scoreRecord depth i rec s = (r, s') ->
  exists t, log s' = log s ++ t /\ searchesTrace depth (isOk r) t.
Proof.
  unfold scoreRecord. rewrite bind_run.
  destruct (requestBestMove depth rec s) as [[line|e] s1] eqn:E1;
    apply requestBestMove_trace in E1; destruct E1 as (t1 & L1 & T1); cbn [isOk] in T1.
  2:{ intros H; inversion H; subst. exists t1. split; [assumption|].
      now apply searchesTrace_one. }
  destruct (fenAfterBestOf rec line) as [fenAfterBest|].
  2:{ intros H; inversion H; subst. exists t1. split; [assumption|].
      now apply searchesTrace_one. }
  rewrite bind_run.
  destruct (evalPosition fenAfterBest depth s1) as [[evalBest|e] s2] eqn:E2;
    apply evalPosition_trace in E2; destruct E2 as (t2 & L2 & T2); cbn [isOk] in T2.
  2:{ intros H; inversion H; subst. exists (t1 ++ t2). split.
      - now rewrite L2, L1, app_assoc.
      - apply searchesTrace_app; now apply searchesTrace_one. }
  rewrite bind_run.
  destruct (evalPosition (toFen rec) depth s2) as [[evalPlayed|e] s3] eqn:E3;
    apply evalPosition_trace in E3; destruct E3 as (t3 & L3 & T3); cbn [isOk] in T3;
    intros H; inversion H; subst; exists (t1 ++ t2 ++ t3); (split;
      [ now rewrite L3, L2, L1, !app_assoc
      | apply searchesTrace_app; [now apply searchesTrace_one|];
        apply searchesTrace_app; now apply searchesTrace_one ]).
Qed.

Lemma scoreMoves_trace (recs : list MoveRecord) (i : nat) (acc : list MoveScore)
      (s s' : session) (r : result (list MoveScore)) :
  scoreMoves depth recs i acc s = (r, s') ->
  exists t, log s' = log s ++ t /\ searchesTrace depth (isOk r) t.
Proof.
  revert i acc s. induction recs as [|rec rest IH]; intros i acc s.
  - intros H; inversion H; subst. exists []. split; [now rewrite app_nil_r | constructor].
  - cbn [scoreMoves]. rewrite bind_run.
    destruct (scoreRecord depth i rec s) as [[o|e] s1] eqn:E1;
      apply scoreRecord_trace in E1; destruct E1 as (t1 & L1 & T1); cbn [isOk] in T1.
    2:{ intros H; inversion H; subst. eauto. }
    intros H.
    assert (exists t, log s' = log s1 ++ t /\ searchesTrace depth (isOk r) t)
      as (t2 & L2 & T2) by (destruct o; eapply IH; eassumption).
    exists (t1 ++ t2). split; [now rewrite L2, L1, app_assoc|].
    now apply searchesTrace_app.
Qed.

(** The log of a whole analysis: the start-up, the readiness check, the
    searches, and [quit] exactly when nothing failed. *)
Lemma analyze_trace (recs : list MoveRecord) (lines : list string)
      (r : result float) (s' : session) :
  analyze depth recs (fresh lines) = (r, s') ->
  let start := [Spawn STOCKFISH_CMD; Write "uci"; Sleep 200; Write "isready";
                SetOnLine 5000] in
  match r with
  | Ok _ =>
      exists ts, searchesTrace depth true ts
                 /\ log s' = start ++ [Resolve "readyok"] ++ ts ++ [Write "quit"; Sleep 50]
  | Err _ =>
      (exists msg, log s' = start ++ [Reject msg])
      \/ (exists ts, searchesTrace depth false ts
                     /\ log s' = start ++ [Resolve "readyok"] ++ ts)
  end.
Proof.
  unfold analyze, newEngine, quit, waitForLineMatching, fresh.
  cbv beta delta [bind emit send sleep ret] iota. cbn [log inbox app].
  rewrite awaitHandler_run. cbn [inbox log app].
  match goal with
  | |- context [deliver ?h tt lines] =>
      destruct (deliver h tt lines) as [[[a line] rest]|] eqn:E
  end.
  2:{ intros H; inversion H; subst. left. eexists. reflexivity. }
  apply deliver_matching in E. destruct E as (-> & Heq & _).
  apply String.eqb_eq in Heq. subst line.
  match goal with
  | |- context [scoreMoves depth recs 0 [] ?s0] =>
      destruct (scoreMoves depth recs 0 [] s0) as [[out|e] s1] eqn:E1
  end;
    apply scoreMoves_trace in E1; destruct E1 as (ts & L & T); cbn [isOk log] in *.
  - intros H. inversion H; subst. cbn [log]. exists ts. split; [assumption|].
    rewrite L. cbn. now rewrite <- !app_assoc.
  - intros H. inversion H; subst. right. exists ts. split; [assumption|].
    rewrite L. reflexivity.
Qed.

(** A successful analysis, step by step: the engine becomes ready, the
    loop runs from the session reached then, and the analysis returns the
    accuracy of the entries the loop collected, after [quit]. *)
Lemma analyze_run (recs : list MoveRecord) (lines : list string)
      (ready : string) (s0 : session) (out : list MoveScore) (s1 : session) :
  startEngine (fresh lines) = (Ok ready, s0) ->
  scoreMoves depth recs 0 [] s0 = (Ok out, s1) ->
  analyze depth recs (fresh lines)
  = (Ok (accuracyPct out), mkSession (inbox s1) (log s1 ++ [Write "quit"; Sleep 50])).
Proof.
  unfold startEngine, analyze, newEngine, quit, fresh.
  cbv beta delta [bind emit send sleep ret] iota. cbn [log inbox app].
  match goal with
  | |- context [waitForLineMatching ?p 5000 ?s] =>
      destruct (waitForLineMatching p 5000 s) as [[r|e] s0'] eqn:E
  end; [|discriminate].
  intros Hs H. inversion Hs; subst. rewrite H. cbn [log inbox].
  now rewrite <- app_assoc.
Qed.

(** Conversely, an analysis that succeeds went through these steps. *)
Lemma analyze_ok (recs : list MoveRecord) (lines : list string)
      (a : float) (s' : session) :
  analyze depth recs (fresh lines) = (Ok a, s') ->
  exists ready s0 out s1,
    startEngine (fresh lines) = (Ok ready, s0)
    /\ scoreMoves depth recs 0 [] s0 = (Ok out, s1)
    /\ a = accuracyPct out.
Proof.
  unfold startEngine, analyze, newEngine, quit, fresh.
  cbv beta delta [bind emit send sleep ret] iota. cbn [log inbox app].
  match goal with
  | |- context [waitForLineMatching ?p 5000 ?s] =>
      destruct (waitForLineMatching p 5000 s) as [[r|e] s0] eqn:E
  end; [|discriminate].
  destruct (scoreMoves depth recs 0 [] s0) as [[out|e] s1] eqn:E1; [|discriminate].
  intros H. inversion H; subst. exists r, s0, out, s1. auto.
Qed.

End Traces.

(* ------------------------------------------------------------------ *)
(** ** Release of the engine process ([quit]) *)

Lemma searchTrace_no_quit (depth : N) (b : bool) (t : list event) :
  searchTrace depth b t -> ~ In (Write "quit") t.
Proof.
  intros H Hin. inversion H; subst; cbn in Hin;
    repeat (destruct Hin as [Hin|Hin]; [discriminate Hin|]); exact Hin.
Qed.

Lemma searchesTrace_no_quit (depth : N) (b : bool) (ts : list event) :
  searchesTrace depth b ts -> ~ In (Write "quit") ts.
Proof.
  induction 1 as [|t ts b Ht Hts IH|t Ht]; intros Hin.
  - exact Hin.
  - apply in_app_or in Hin. destruct Hin as [Hin|Hin]; [|auto].
    eapply searchTrace_no_quit; eassumption.
  - eapply searchTrace_no_quit; eassumption.
Qed.

(** With no quit command in [l], the time since the quit command at the end
    of [l ++ [Write "quit"; Sleep ms]] is [ms]. *)
Lemma sinceQuit_at_end (l : list event) (ms : Z) :
  ~ In (Write "quit") l ->
  sinceQuit (l ++ [Write "quit"; Sleep ms]) = Some ms.
Proof.
  induction l as [|e l IH]; intros Hno.
  - cbn. f_equal. lia.
  - cbn [app sinceQuit].
    assert (Hl : ~ In (Write "quit") l) by (intros H; apply Hno; now right).
    destruct e; try (now apply IH).
    destruct (String.eqb_spec cmd "quit") as [->|_]; [|now apply IH].
    exfalso. apply Hno. now left.
Qed.

(** The process after [quit] on a log that started it and has not sent it
    quit: gone exactly when the engine needs at most the 50 milliseconds. *)
Lemma processRunning_after_quit (exitDelay : option Z) (l : list event) :
  existsb isSpawn l = true ->
  ~ In (Write "quit") l ->
  processRunning exitDelay (l ++ [Write "quit"; Sleep 50]) = false
  <-> exists d, exitDelay = Some d /\ d <= 50.
Proof.
  intros Hs Hq. unfold processRunning.
  rewrite existsb_app, Hs, (sinceQuit_at_end l 50 Hq). cbn [orb andb].
  destruct exitDelay as [d|]; cbn [negb].
  - rewrite negb_false_iff, Z.leb_le. split; [eauto|].
    intros (d' & E & H). now inversion E; subst.
  - split; [discriminate|]. intros (d & E & _). discriminate E.
Qed.

(** C4 as stated fails on an engine that takes a second to leave after the
    quit command: the analysis succeeds, its last actions are the quit
    command and the wait of 50 milliseconds, and when it returns the
    process is still running.  Nothing in the log ends the process: the
    source has no [kill] and does not wait for the process to exit.  The
    same holds for an engine that ignores the command. *)
Lemma quit_leaves_engine_running_counterexample :
  let run := analyze (chess := lenientChess) 18 [sampleRecord]
                     (fresh ("readyok" :: blunderLines)) in
  fst run = Ok 10%float
  /\ log (snd run) =
       [Spawn STOCKFISH_CMD; Write "uci"; Sleep 200; Write "isready"; SetOnLine 5000;
        Resolve "readyok";
        Write ("position fen " ++ fromFen sampleRecord); Write "go depth 18";
        SetOnLine 60000; Resolve "bestmove d2d4 ponder d7d5";
        Write ("position fen " ++ fromFen sampleRecord); Write "go depth 18";
        SetOnLine 60000; Resolve "bestmove d7d5";
        Write ("position fen " ++ toFen sampleRecord); Write "go depth 18";
        SetOnLine 60000; Resolve "bestmove e7e5";
        Write "quit"; Sleep 50]
  /\ processRunning (Some 1000) (log (snd run)) = true
  /\ processRunning None (log (snd run)) = true.
Proof. repeat split. Qed.

(** C4, amended.  [quit] sends the quit command and then waits a fixed 50
    milliseconds; it does not look at the process, does not end it, and
    cannot fail.  An analysis that succeeds calls it once, as its last
    action, on a process it has started and not told to quit before; when
    the analysis returns, the process is no longer running exactly when
    the engine needs at most these 50 milliseconds to leave after the
    command. *)
Theorem quit_waits_fixed_time {chess : ChessLib} (depth : N)
        (recs : list MoveRecord) (lines : list string) (a : float) (s' : session)
        (exitDelay : option Z) :
  analyze depth recs (fresh lines) = (Ok a, s') ->
  (exists before,
      log s' = before ++ [Write "quit"; Sleep 50]
      /\ existsb isSpawn before = true
      /\ ~ In (Write "quit") before)
  /\ (processRunning exitDelay (log s') = false <-> exists d, exitDelay = Some d /\ d <= 50)
  /\ (forall s, quit s = (Ok tt, mkSession (inbox s) (log s ++ [Write "quit"; Sleep 50]))).
Proof.
  intros E. pose proof (analyze_trace depth recs lines (Ok a) s' E) as H.
  cbv zeta in H. destruct H as (ts & T & L).
  set (before := [Spawn STOCKFISH_CMD; Write "uci"; Sleep 200; Write "isready";
                  SetOnLine 5000; Resolve "readyok"] ++ ts).
  assert (Lb : log s' = before ++ [Write "quit"; Sleep 50]).
  { rewrite L. subst before. now rewrite <- app_assoc. }
  assert (Hs : existsb isSpawn before = true) by reflexivity.
  assert (Hq : ~ In (Write "quit") before).
  { subst before. intros Hin. apply in_app_or in Hin. destruct Hin as [Hin|Hin].
    - cbn in Hin. repeat (destruct Hin as [Hin|Hin]; [discriminate Hin|]). exact Hin.
    - eapply searchesTrace_no_quit; eassumption. }
  split; [exists before; auto | split].
  - rewrite Lb. now apply processRunning_after_quit.
  - intros s. unfold quit, sleep. cbv beta delta [bind emit send] iota.
    cbn [log inbox]. now rewrite <- app_assoc.
Qed.

Lemma quit_waits_fixed_time_witness :
  processRunning (Some 20) 
    (log (snd (analyze (chess := lenientChess) 18 [sampleRecord]
                 (fresh ("readyok" :: blunderLines))))) = false.
Proof.
  apply (proj1 (proj2 (quit_waits_fixed_time (chess := lenientChess) 18 [sampleRecord]
                         ("readyok" :: blunderLines) 10%float _ (Some 20) eq_refl))).
  exists 20. split; [reflexivity | lia].
Defined.

(** An engine that never answers the readiness check: the analysis fails,
    and its whole log is the start-up and the rejected wait. *)
Example analyze_timeout_at_readiness :
  let run := analyze (chess := lenientChess) 18 [sampleRecord]
                     (fresh ["id name engine"; "uciok"]) in
  fst run = Err (EngineError "Timeout waiting for engine line")
  /\ log (snd run) =
       [Spawn STOCKFISH_CMD; Write "uci"; Sleep 200; Write "isready";
        SetOnLine 5000; Reject "Timeout waiting for engine line"].
Proof. split; reflexivity. Qed.

(* ------------------------------------------------------------------ *)
(** ** One search at a time *)

Lemma observe_app (m : monitor) (a b : list event) :
  observe m (a ++ b) = observe (observe m a) b.
Proof. unfold observe. apply fold_left_app. Qed.

Lemma serialized_bounded (m : monitor) (l : list event) :
  serialized m l = true -> bounded m = true.
Proof. destruct l; cbn [serialized]; intros H; now apply andb_prop in H. Qed.

Lemma serialized_app (m : monitor) (a b : list event) :
  serialized m (a ++ b) = serialized m a && serialized (observe m a) b.
Proof.
  revert m. induction a as [|e a IH]; intros m; cbn [app serialized observe fold_left].
  - destruct b; cbn [serialized]; destruct (bounded m); reflexivity.
  - fold (observe (observe1 m e) a). rewrite IH.
    now rewrite <- !andb_assoc.
Qed.

(** Along a log that respects the discipline, every state reached is within
    bounds and the next action is permitted. *)
Lemma serialized_prefix (m : monitor) (pre suf : list event) :
  serialized m (pre ++ suf) = true ->
  bounded (observe m pre) = true
  /\ match suf with
     | e :: _ => permitted (observe m pre) e = true
     | [] => True
     end.
Proof.
  rewrite serialized_app. intros H. apply andb_prop in H. destruct H as [_ H].
  split; [eapply serialized_bounded; eassumption|].
  destruct suf as [|e suf]; [exact I|].
  cbn [serialized] in H. apply andb_prop in H. destruct H as [_ H].
  now apply andb_prop in H.
Qed.

Lemma searchTrace_serialized (depth : N) (b : bool) (t : list event) :
  searchTrace depth b t ->
  serialized idle t = true /\ (b = true -> observe idle t = idle).
Proof.
  intros H. inversion H; subst; cbn.
  - rewrite H0. cbn. split; [reflexivity | reflexivity].
  - split; [reflexivity | discriminate].
Qed.

Lemma searchesTrace_serialized (depth : N) (b : bool) (ts : list event) :
  searchesTrace depth b ts ->
  serialized idle ts = true /\ (b = true -> observe idle ts = idle).
Proof.
  induction 1 as [|t ts b Ht Hts IH|t Ht].
  - split; reflexivity.
  - destruct (searchTrace_serialized _ _ _ Ht) as [S1 O1].
    destruct IH as [S2 O2].
    rewrite serialized_app, S1, (O1 eq_refl), S2. split; [reflexivity|].
    intros Hb. rewrite observe_app, (O1 eq_refl). now apply O2.
  - eapply searchTrace_serialized; eassumption.
Qed.

Lemma analyze_serialized {chess : ChessLib} (depth : N) (recs : list MoveRecord)
      (lines : list string) :
  serialized idle (log (snd (analyze depth recs (fresh lines)))) = true.
Proof.
  destruct (analyze depth recs (fresh lines)) as [r s'] eqn:E.
  pose proof (analyze_trace depth recs lines r s' E) as H. cbn [snd].
  destruct r as [a|e].
  - destruct H as (ts & T & L). rewrite L.
    destruct (searchesTrace_serialized _ _ _ T) as [S1 O1].
    change ([Spawn STOCKFISH_CMD; Write "uci"; Sleep 200; Write "isready"; SetOnLine 5000]
              ++ [Resolve "readyok"] ++ ts ++ [Write "quit"; Sleep 50])
      with ([Spawn STOCKFISH_CMD; Write "uci"; Sleep 200; Write "isready"; SetOnLine 5000;
             Resolve "readyok"] ++ ts ++ [Write "quit"; Sleep 50]).
    rewrite serialized_app.
    change (observe idle [Spawn STOCKFISH_CMD; Write "uci"; Sleep 200; Write "isready";
                          SetOnLine 5000; Resolve "readyok"]) with idle.
    rewrite serialized_app, S1, (O1 eq_refl). reflexivity.
  - destruct H as [(msg & L)|(ts & T & L)]; rewrite L; [reflexivity|].
    destruct (searchesTrace_serialized _ _ _ T) as [S1 _].
    change ([Spawn STOCKFISH_CMD; Write "uci"; Sleep 200; Write "isready"; SetOnLine 5000]
              ++ [Resolve "readyok"] ++ ts)
      with ([Spawn STOCKFISH_CMD; Write "uci"; Sleep 200; Write "isready"; SetOnLine 5000;
             Resolve "readyok"] ++ ts).
    rewrite serialized_app.
    change (observe idle [Spawn STOCKFISH_CMD; Write "uci"; Sleep 200; Write "isready";
                          SetOnLine 5000; Resolve "readyok"]) with idle.
    rewrite S1. reflexivity.
Qed.

(** C8.  In every state an analysis reaches (after every prefix [pre] of
    its log) at most one search is in flight and at most one handler is
    registered; a request command is only written when no search is in
    flight, that is, after the best-move line of the previous one has been
    consumed; a handler is only installed into an empty slot. *)
Theorem single_request_in_flight {chess : ChessLib} (depth : N)
        (recs : list MoveRecord) (lines : list string) (pre suf : list event) :
  log (snd (analyze depth recs (fresh lines))) = pre ++ suf ->
  0 <= inFlight (observe idle pre) <= 1
  /\ 0 <= waiters (observe idle pre) <= 1
  /\ (forall cmd suf', suf = Write cmd :: suf' -> isRequest cmd = true ->
                       inFlight (observe idle pre) = 0)
  /\ (forall timeout suf', suf = SetOnLine timeout :: suf' ->
                           waiters (observe idle pre) = 0).
Proof.
  intros L. pose proof (analyze_serialized depth recs lines) as S.
  rewrite L in S. apply serialized_prefix in S. destruct S as [B P].
  unfold bounded in B. apply andb_prop in B. destruct B as [B1 B2].
  apply andb_prop in B1. apply andb_prop in B2. destruct B1 as [B1 B1'], B2 as [B2 B2'].
  split; [lia | split; [lia | split]].
  - intros cmd suf' -> Hreq. cbn [permitted] in P. rewrite Hreq in P. lia.
  - intros timeout suf' ->. cbn [permitted] in P. lia.
Qed.

Lemma single_request_in_flight_witness :
  let pre := [Spawn STOCKFISH_CMD; Write "uci"; Sleep 200; Write "isready";
              SetOnLine 5000; Resolve "readyok";
              Write ("position fen " ++ fromFen sampleRecord); Write "go depth 18";
              SetOnLine 60000; Resolve "bestmove d2d4 ponder d7d5"] in
  0 <= inFlight (observe idle pre) <= 1
  /\ 0 <= waiters (observe idle pre) <= 1
  /\ inFlight (observe idle pre) = 0.
Proof.
  intros pre.
  pose proof (single_request_in_flight (chess := lenientChess) 18 [sampleRecord]
                ("readyok" :: blunderLines) pre
                [Write ("position fen " ++ fromFen sampleRecord); Write "go depth 18";
                 SetOnLine 60000; Resolve "bestmove d7d5";
                 Write ("position fen " ++ toFen sampleRecord); Write "go depth 18";
                 SetOnLine 60000; Resolve "bestmove e7e5";
                 Write "quit"; Sleep 50]
                eq_refl) as (H1 & H2 & H3 & _).
  split; [exact H1 | split; [exact H2 |]].
  exact (H3 _ _ eq_refl eq_refl).
Defined.

(* ------------------------------------------------------------------ *)
(** ** The score of an evaluation ([evalPosition]) *)

(** The handler keeps the last score seen: a line without an announcement
    leaves it as it is, a line with one overwrites it. *)
Lemma evalHandler_state (last : option Z) (line : string) :
  fst (evalHandler last line) =
    match parseScoreFromInfoLine line with
    | Some v => Some v
    | None => last
    end.
Proof. unfold evalHandler. destruct (startsWith line "bestmove"); reflexivity. Qed.

Lemma lastAnnounced_snoc (lines : list string) (line : string) :
  lastAnnounced (lines ++ [line]) =
    match parseScoreFromInfoLine line with
    | Some v => Some v
    | None => lastAnnounced lines
    end.
Proof.
  induction lines as [|l lines IH]; cbn [app lastAnnounced].
  - destruct (parseScoreFromInfoLine line); reflexivity.
  - rewrite IH. destruct (parseScoreFromInfoLine line); reflexivity.
Qed.

(** Delivery to the handler of [evalPosition], started with [last] as the
    score captured so far: it resolves at the first best-move line, with
    the last announcement among the lines delivered, that line included. *)
Lemma deliver_eval (last : option Z) (before : list string) (terminal : string)
      (rest : list string) :
  (forall l, In l before -> startsWith l "bestmove" = false) ->
  startsWith terminal "bestmove" = true ->
  deliver evalHandler last (before ++ terminal :: rest) =
    Some (orZero (match lastAnnounced (before ++ [terminal]) with
                  | Some v => Some v
                  | None => last
                  end), terminal, rest).
Proof.
  intros Hb Ht. revert last.
  induction before as [|l before IH]; intros last; cbn [app deliver].
  - unfold evalHandler. rewrite Ht. cbn [lastAnnounced].
    destruct (parseScoreFromInfoLine terminal); reflexivity.
  - assert (El : startsWith l "bestmove" = false) by (apply Hb; now left).
    unfold evalHandler at 1. rewrite El.
    rewrite IH by (intros l' Hl'; apply Hb; now right).
    cbn [lastAnnounced].
    destruct (lastAnnounced (before ++ [terminal])); [reflexivity|].
    destruct (parseScoreFromInfoLine l); reflexivity.
Qed.

(** C6.  The engine delivers the lines [before], none of which is a
    best-move line, then the best-move line [terminal], which carries the
    move and no score announcement.  The evaluation succeeds, consumes
    exactly these lines, and its score is that of the last line of [before]
    that parses as a score announcement, or 0 when none does.  A line that
    does not parse leaves the captured score unchanged; a line that parses
    overwrites it. *)
Theorem evalPosition_last_announced (fen : string) (depth : N)
        (before : list string) (terminal : string) (rest : list string)
        (done : list event) :
  (forall l, In l before -> startsWith l "bestmove" = false) ->
  startsWith terminal "bestmove" = true ->
  parseScoreFromInfoLine terminal = None ->
  evalPosition fen depth (mkSession (before ++ terminal :: rest) done)
    = (Ok (orZero (lastAnnounced before)),
       mkSession rest
         (done ++ [Write ("position fen " ++ fen); Write ("go depth " ++ showN depth);
                   SetOnLine 60000; Resolve terminal]))
  /\ (lastAnnounced before = None ->
      fst (evalPosition fen depth (mkSession (before ++ terminal :: rest) done)) = Ok 0)
  /\ (forall last line, parseScoreFromInfoLine line = None ->
                        fst (evalHandler last line) = last)
  /\ (forall last line v, parseScoreFromInfoLine line = Some v ->
                          fst (evalHandler last line) = Some v).
Proof.
  intros Hb Ht Hnone.
  assert (E : evalPosition fen depth (mkSession (before ++ terminal :: rest) done)
              = (Ok (orZero (lastAnnounced before)),
                 mkSession rest
                   (done ++ [Write ("position fen " ++ fen);
                             Write ("go depth " ++ showN depth);
                             SetOnLine 60000; Resolve terminal]))).
  { unfold evalPosition.
    rewrite bind_run, send_run, bind_run, send_run, awaitHandler_run.
    cbn [inbox log]. rewrite (deliver_eval None before terminal rest Hb Ht).
    rewrite lastAnnounced_snoc, Hnone.
    repeat rewrite <- app_assoc. cbn [app].
    destruct (lastAnnounced before); reflexivity. }
  split; [exact E | split; [|split]].
  - intros Hn. rewrite E, Hn. reflexivity.
  - intros last line Hp. now rewrite evalHandler_state, Hp.
  - intros last line v Hp. now rewrite evalHandler_state, Hp.
Qed.

Lemma evalPosition_last_announced_witness :
  fst (evalPosition "8/8/8/8/8/8/8/8 w - - 0 1" 18
         (fresh ["info depth 1 score cp 30"; "info depth 2 currmove e2e4";
                 "info depth 2 score cp -35"; "info string done"; "bestmove e7e5";
                 "info depth 1 score cp 99"]))
  = Ok (-35).
Proof.
  exact (f_equal fst
           (proj1 (evalPosition_last_announced "8/8/8/8/8/8/8/8 w - - 0 1" 18
                     ["info depth 1 score cp 30"; "info depth 2 currmove e2e4";
                      "info depth 2 score cp -35"; "info string done"]
                     "bestmove e7e5" ["info depth 1 score cp 99"] []
                     ltac:(intros l H; cbn in H;
                           repeat (destruct H as [<-|H]; [reflexivity|]); destruct H)
                     eq_refl eq_refl))).
Defined.

(** The handler reads every line for a score before it looks for the best
    move, the best-move line included: an announcement written on that
    line itself would count. *)
Example score_on_the_best_move_line :
  fst (evalPosition "8/8/8/8/8/8/8/8 w - - 0 1" 18
         (fresh ["info depth 1 currmove e2e4"; "bestmove e2e4 score cp 7"]))
  = Ok 7.
Proof. reflexivity. Qed.

(* ------------------------------------------------------------------ *)
(** ** The per-move loop *)

Lemma centipawnLoss_max (turn : color) (evalBest evalPlayed : Z) :
  centipawnLoss turn evalBest evalPlayed
  = Z.max 0 (persp turn evalBest - persp turn evalPlayed).
Proof.
  unfold centipawnLoss, persp, playerMultiplier.
  destruct turn;
    match goal with |- context [(?x <? 0)%Z] => destruct (Z.ltb_spec x 0) end; lia.
Qed.

Section Loop.

Context {chess : ChessLib}.
Variable depth : N.

(** A record that is scored went through the three searches, and its
    entry is built from the two evaluations. *)
Lemma scoreRecord_scored (i : nat) (rec : MoveRecord) (s s' : session) (ms : MoveScore) :
  scoreRecord depth i rec s = (Ok (Some ms), s') ->
  exists line s1 fenAfterBest evalBest s2 evalPlayed,
    requestBestMove depth rec s = (Ok line, s1)
    /\ fenAfterBestOf rec line = Some fenAfterBest
    /\ evalPosition fenAfterBest depth s1 = (Ok evalBest, s2)
    /\ evalPosition (toFen rec) depth s2 = (Ok evalPlayed, s')
    /\ ms = mkMoveScore (i + 1) (moveSan rec)
              (centipawnLoss (turnBefore rec) evalBest evalPlayed)
              (cplToMoveScore (centipawnLoss (turnBefore rec) evalBest evalPlayed)).
Proof.
  unfold scoreRecord. intros H.
  apply bind_ok in H. destruct H as (line & s1 & E1 & H).
  destruct (fenAfterBestOf rec line) as [fenAfterBest|] eqn:Ef; [|discriminate].
  apply bind_ok in H. destruct H as (evalBest & s2 & E2 & H).
  apply bind_ok in H. destruct H as (evalPlayed & s3 & E3 & H).
  inversion H; subst.
  exists line, s1, fenAfterBest, evalBest, s2, evalPlayed. auto.
Qed.

(** A record without an applicable suggestion costs one search and gives
    no entry. *)
Lemma scoreRecord_unscored (i : nat) (rec : MoveRecord) (s s1 : session) (line : string) :
  requestBestMove depth rec s = (Ok line, s1) ->
  fenAfterBestOf rec line = None ->
  scoreRecord depth i rec s = (Ok None, s1).
Proof.
  intros E1 Ef. unfold scoreRecord. now rewrite bind_run, E1, Ef.
Qed.

Lemma requestBestMove_log (rec : MoveRecord) (s s1 : session) (line : string) :
  requestBestMove depth rec s = (Ok line, s1) ->
  log s1 = log s ++ [Write ("position fen " ++ fromFen rec);
                     Write ("go depth " ++ showN depth);
                     SetOnLine 60000; Resolve line].
Proof.
  unfold requestBestMove, waitForLineMatching.
  rewrite bind_run, send_run, bind_run, send_run, awaitHandler_run.
  cbn [inbox log].
  match goal with
  | |- context [deliver ?h tt (inbox s)] =>
      destruct (deliver h tt (inbox s)) as [[[a l] rest]|] eqn:E
  end; [|discriminate].
  apply deliver_matching in E. destruct E as (-> & _).
  intros H; inversion H; subst. cbn [log].
  now repeat rewrite <- app_assoc.
Qed.

(** Every entry of the output is either one that was already there or the
    entry of a later record, made by the loop body at that record's
    index. *)
Lemma scoreMoves_entries (recs : list MoveRecord) (i : nat) (acc out : list MoveScore)
      (s s' : session) :
  scoreMoves depth recs i acc s = (Ok out, s') ->
  forall ms, In ms out ->
    In ms acc
    \/ exists k rec s1 s2,
         nth_error recs k = Some rec
         /\ scoreRecord depth (i + k) rec s1 = (Ok (Some ms), s2).
Proof.
  revert i acc s. induction recs as [|rec rest IH]; intros i acc s H ms Hin.
  - inversion H; subst. now left.
  - cbn [scoreMoves] in H. apply bind_ok in H. destruct H as (o & s1 & E1 & H).
    destruct o as [m|].
    + destruct (IH _ _ _ H ms Hin) as [Hacc|(k & r & sa & sb & Hn & Hs)].
      * apply in_app_or in Hacc. destruct Hacc as [Hacc|[<-|[]]]; [now left|].
        right. exists 0%nat, rec, s, s1. split; [reflexivity|].
        now rewrite Nat.add_0_r.
      * right. exists (S k), r, sa, sb. split; [exact Hn|].
        now rewrite Nat.add_succ_r.
    + destruct (IH _ _ _ H ms Hin) as [Hacc|(k & r & sa & sb & Hn & Hs)]; [now left|].
      right. exists (S k), r, sa, sb. split; [exact Hn|].
      now rewrite Nat.add_succ_r.
Qed.

Lemma scoreMoves_entry_index (recs : list MoveRecord) (i : nat) (acc out : list MoveScore)
      (s s' : session) :
  scoreMoves depth recs i acc s = (Ok out, s') ->
  forall ms, In ms out -> In ms acc \/ (i < idx ms)%nat.
Proof.
  intros H ms Hin.
  destruct (scoreMoves_entries _ _ _ _ _ _ H ms Hin) as [Hacc|(k & r & sa & sb & _ & Hs)];
    [now left|].
  right. apply scoreRecord_scored in Hs.
  destruct Hs as (? & ? & ? & ? & ? & ? & _ & _ & _ & _ & ->). cbn [idx]. lia.
Qed.

(** Every entry of the output carries the table's score of its loss. *)
Lemma centipawn_loss_table_entry (recs : list MoveRecord) (s s' : session)
      (out : list MoveScore) (ms : MoveScore) :
  scoreMoves depth recs 0 [] s = (Ok out, s') ->
  In ms out ->
  exists i m c, ms = mkMoveScore i m c (cplToMoveScore c).
Proof.
  intros H Hin.
  destruct (scoreMoves_entries _ _ _ _ _ _ H ms Hin) as [[]|(k & rec & sa & sb & _ & Hs)].
  apply scoreRecord_scored in Hs.
  destruct Hs as (? & ? & ? & ? & ? & ? & _ & _ & _ & _ & ->). eauto.
Qed.

(** The loop up to a record and from it on. *)
Lemma scoreMoves_cons (rec : MoveRecord) (rest : list MoveRecord) (i : nat)
      (acc : list MoveScore) (s s1 : session) (o : option MoveScore) :
  scoreRecord depth i rec s = (Ok o, s1) ->
  scoreMoves depth (rec :: rest) i acc s
  = scoreMoves depth rest (S i) (match o with Some ms => acc ++ [ms] | None => acc end) s1.
Proof. intros E. cbn [scoreMoves]. rewrite bind_run, E. now destruct o. Qed.

(** Every entry of the output that was not there before is the entry of one
    record of the game: the loop ran through the records before it, the
    loop body made the entry from the session it found, and the loop went
    on from there. *)
Lemma scoreMoves_entry_run (recs : list MoveRecord) (i : nat) (acc out : list MoveScore)
      (s s' : session) :
  scoreMoves depth recs i acc s = (Ok out, s') ->
  forall ms, In ms out ->
    In ms acc
    \/ exists pre rec post before s0 s3,
         recs = pre ++ rec :: post
         /\ scoreMoves depth pre i acc s = (Ok before, s0)
         /\ scoreRecord depth (i + List.length pre) rec s0 = (Ok (Some ms), s3)
         /\ scoreMoves depth post (S (i + List.length pre)) (before ++ [ms]) s3 = (Ok out, s').
Proof.
  revert i acc s. induction recs as [|rec rest IH]; intros i acc s H ms Hin.
  - inversion H; subst. now left.
  - pose proof H as H0. cbn [scoreMoves] in H. apply bind_ok in H.
    destruct H as (o & s1 & E1 & H).
    assert (Hhere : forall m, o = Some m -> ms = m ->
              exists pre r post before s0 s3,
                rec :: rest = pre ++ r :: post
                /\ scoreMoves depth pre i acc s = (Ok before, s0)
                /\ scoreRecord depth (i + List.length pre) r s0 = (Ok (Some ms), s3)
                /\ scoreMoves depth post (S (i + List.length pre)) (before ++ [ms]) s3
                   = (Ok out, s')).
    { intros m Ho Hm. subst o m. exists [], rec, rest, acc, s, s1. cbn [app List.length].
      rewrite Nat.add_0_r. repeat split; auto. }
    assert (Hlater : forall acc1,
              scoreMoves depth rest (S i) acc1 s1 = (Ok out, s') ->
              (forall pre, scoreMoves depth (rec :: pre) i acc s
                           = scoreMoves depth pre (S i) acc1 s1) ->
              In ms acc1
              \/ exists pre r post before s0 s3,
                   rec :: rest = pre ++ r :: post
                   /\ scoreMoves depth pre i acc s = (Ok before, s0)
                   /\ scoreRecord depth (i + List.length pre) r s0 = (Ok (Some ms), s3)
                   /\ scoreMoves depth post (S (i + List.length pre)) (before ++ [ms]) s3
                      = (Ok out, s')).
    { intros acc1 H1 Hstep.
      destruct (IH _ _ _ H1 ms Hin)
        as [Hacc|(pre & r & post & before & s0 & s3 & -> & Hpre & Hrec & Hpost)];
        [now left|].
      right. exists (rec :: pre), r, post, before, s0, s3. cbn [app List.length].
      rewrite Nat.add_succ_r. rewrite Hstep. repeat split; auto. }
    destruct o as [m|].
    + destruct (Hlater (acc ++ [m]) H) as [Hacc|Hex].
      * intros pre. now apply scoreMoves_cons with (o := Some m).
      * apply in_app_or in Hacc. destruct Hacc as [Hacc|[Hm|[]]]; [now left|].
        right. now apply (Hhere m).
      * now right.
    + destruct (Hlater acc H) as [Hacc|Hex].
      * intros pre. now apply scoreMoves_cons with (o := None).
      * now left.
      * now right.
Qed.

(** C1.  Every entry [ms] of the output is the entry of one record [rec] of
    the game, the one at its index.  In the run that produced the output,
    the loop reached this record in the session [s0]; the engine's
    best-move line there gave the position [fenAfterBest]; [evalBest] and
    [evalPlayed] are what the two evaluations returned then, the first of
    [fenAfterBest], the second of the position after the played move.  The
    loss of the entry is [max 0 (evalBestPersp - evalPlayedPersp)], where
    the perspective flips the sign exactly for the second player (for
    evaluations within 2^52, whose difference the doubles of the source
    hold exactly); it is never negative. *)
Theorem centipawn_loss_clamped (recs : list MoveRecord) (s s' : session)
        (out : list MoveScore) (ms : MoveScore) :
  scoreMoves depth recs 0 [] s = (Ok out, s') ->
  In ms out ->
  exists pre rec post before s0 line s1 fenAfterBest evalBest s2 evalPlayed s3,
    recs = pre ++ rec :: post
    /\ idx ms = S (List.length pre)
    /\ scoreMoves depth pre 0 [] s = (Ok before, s0)
    /\ requestBestMove depth rec s0 = (Ok line, s1)
    /\ fenAfterBestOf rec line = Some fenAfterBest
    /\ evalPosition fenAfterBest depth s1 = (Ok evalBest, s2)
    /\ evalPosition (toFen rec) depth s2 = (Ok evalPlayed, s3)
    /\ scoreMoves depth post (S (List.length pre)) (before ++ [ms]) s3 = (Ok out, s')
    /\ (Z.abs evalBest <= 2 ^ 52 -> Z.abs evalPlayed <= 2 ^ 52 ->
        cpl ms = Z.max 0 (persp (turnBefore rec) evalBest - persp (turnBefore rec) evalPlayed))
    /\ 0 <= cpl ms
    /\ score ms = cplToMoveScore (cpl ms).
Proof.
  intros H Hin.
  destruct (scoreMoves_entry_run _ _ _ _ _ _ H ms Hin)
    as [[]|(pre & rec & post & before & s0 & s3 & Hrecs & Hpre & Hrec & Hpost)].
  cbn [Nat.add] in Hrec, Hpost.
  apply scoreRecord_scored in Hrec.
  destruct Hrec as (line & s1 & fenAfterBest & evalBest & s2 & evalPlayed
                    & E1 & Ef & E2 & E3 & Hms).
  exists pre, rec, post, before, s0, line, s1, fenAfterBest, evalBest, s2, evalPlayed, s3.
  subst ms. cbn [idx cpl score] in *.
  pose proof (centipawnLoss_max (turnBefore rec) evalBest evalPlayed) as Hmax.
  split; [exact Hrecs | split; [lia | split; [exact Hpre|]]].
  split; [exact E1 | split; [exact Ef | split; [exact E2 | split; [exact E3|]]]].
  split; [exact Hpost | split; [intros _ _; exact Hmax | split; [lia | reflexivity]]].
Qed.

(** C5.  When the engine's answer to the first search of a record names no
    move, or a move the chess library cannot apply, the loop body ends
    without an entry and without failing, having written only the two
    commands of that first search; the loop goes on with the next record
    at the next index and the same entries, and no entry of the final
    output has this record's index. *)
Theorem unscored_move_skipped (rec : MoveRecord) (rest : list MoveRecord) (i : nat)
        (acc : list MoveScore) (s s1 : session) (line : string) :
  requestBestMove depth rec s = (Ok line, s1) ->
  (matchBestMove line = None
   \/ exists uci,
        matchBestMove line = Some uci
        /\ applyMove (fromFen rec) (slice 0 2 uci) (slice 2 4 uci)
             (if (4 <? String.length uci)%nat then String.get 4 uci else None) = None) ->
  scoreRecord depth i rec s = (Ok None, s1)
  /\ log s1 = log s ++ [Write ("position fen " ++ fromFen rec);
                        Write ("go depth " ++ showN depth);
                        SetOnLine 60000; Resolve line]
  /\ scoreMoves depth (rec :: rest) i acc s = scoreMoves depth rest (S i) acc s1
  /\ (forall out s', scoreMoves depth (rec :: rest) i acc s = (Ok out, s') ->
                     forall ms, In ms out -> In ms acc \/ (i + 1 < idx ms)%nat).
Proof.
  intros E1 Hno.
  assert (Ef : fenAfterBestOf rec line = None).
  { unfold fenAfterBestOf. destruct Hno as [->|(uci & -> & Ha)]; [reflexivity | exact Ha]. }
  pose proof (scoreRecord_unscored i rec s s1 line E1 Ef) as Er.
  assert (Eloop : scoreMoves depth (rec :: rest) i acc s = scoreMoves depth rest (S i) acc s1).
  { cbn [scoreMoves]. now rewrite bind_run, Er. }
  split; [exact Er | split; [now apply requestBestMove_log | split; [exact Eloop|]]].
  intros out s' H ms Hin. rewrite Eloop in H.
  destruct (scoreMoves_entry_index _ _ _ _ _ _ H ms Hin); [now left | right; lia].
Qed.

End Loop.

Lemma centipawn_loss_clamped_witness :
  exists rec evalBest evalPlayed,
    [mkMoveRecord "e5" (toFen sampleRecord) (fromFen sampleRecord) Black]
    = [] ++ [rec]
    /\ 0 <= 150
    /\ (Z.abs evalBest <= 2 ^ 52 -> Z.abs evalPlayed <= 2 ^ 52 ->
        150 = Z.max 0 (persp (turnBefore rec) evalBest - persp (turnBefore rec) evalPlayed)).
Proof.
  destruct (centipawn_loss_clamped (chess := lenientChess) 18
              [mkMoveRecord "e5" (toFen sampleRecord) (fromFen sampleRecord) Black]
              (fresh ["bestmove e7e5";
                      "info depth 18 score cp -20"; "bestmove g1f3";
                      "info depth 18 score cp 130"; "bestmove d2d4"])
              _ _ (mkMoveScore 1 "e5" 150 0.30) eq_refl (or_introl eq_refl))
    as (pre & rec & post & before & s0 & line & s1 & fenAfterBest & evalBest & s2
        & evalPlayed & s3 & Hrecs & Hidx & _ & _ & _ & _ & _ & _ & Hc & Hp & _).
  cbn [idx cpl] in *.
  destruct pre as [|r pre]; [|cbn [List.length] in Hidx; discriminate Hidx].
  destruct post as [|r post]; [|discriminate Hrecs].
  exists rec, evalBest, evalPlayed. auto.
Defined.

Lemma unscored_move_skipped_witness :
  scoreRecord (chess := lenientChess) 18 0 sampleRecord
    (fresh ["info depth 18 score mate 0"; "bestmove (none)"; "bestmove d2d4"])
  = (Ok None,
     mkSession ["bestmove d2d4"]
       [Write ("position fen " ++ fromFen sampleRecord); Write "go depth 18";
        SetOnLine 60000; Resolve "bestmove (none)"])
  /\ scoreRecord (chess := refusingChess) 18 0 sampleRecord
       (fresh ["info depth 18 score cp 20"; "bestmove d2d4"; "bestmove e7e5"])
     = (Ok None,
        mkSession ["bestmove e7e5"]
          [Write ("position fen " ++ fromFen sampleRecord); Write "go depth 18";
           SetOnLine 60000; Resolve "bestmove d2d4"]).
Proof.
  split.
  - exact (proj1 (unscored_move_skipped (chess := lenientChess) 18 sampleRecord [] 0 []
                    (fresh ["info depth 18 score mate 0"; "bestmove (none)"; "bestmove d2d4"])
                    _ "bestmove (none)" eq_refl (or_introl eq_refl))).
  - exact (proj1 (unscored_move_skipped (chess := refusingChess) 18 sampleRecord [] 0 []
                    (fresh ["info depth 18 score cp 20"; "bestmove d2d4"; "bestmove e7e5"])
                    _ "bestmove d2d4" eq_refl
                    (or_intror (ex_intro _ "d2d4" (conj eq_refl eq_refl))))).
Defined.

(* ------------------------------------------------------------------ *)
(** ** Bounds of the accuracy *)

Lemma exactValue_table (c : Z) :
  (1 # 10 <= exactValue (cplToMoveScore c))%Q /\ (exactValue (cplToMoveScore c) <= 1)%Q.
Proof.
  destruct (cplToMoveScore_cases c) as [[_ E]|[[_ E]|[[_ E]|[[_ E]|[[_ E]|[_ E]]]]]];
    rewrite E; split; apply Qle_bool_iff; vm_compute; reflexivity.
Qed.

Lemma exactSum_bounds (xs : list float) :
  Forall (fun x => (1 # 10 <= exactValue x)%Q /\ (exactValue x <= 1)%Q) xs ->
  ((1 # 10) * inject_Z (Z.of_nat (List.length xs)) <= exactSum xs)%Q
  /\ (exactSum xs <= inject_Z (Z.of_nat (List.length xs)))%Q.
Proof.
  induction 1 as [|x xs [Hlo Hhi] _ [IHlo IHhi]].
  - change (exactSum []) with 0%Q.
    change (inject_Z (Z.of_nat (List.length (@nil float)))) with 0%Q. split; lra.
  - change (exactSum (x :: xs)) with (exactValue x + exactSum xs)%Q.
    cbn [List.length].
    rewrite Nat2Z.inj_succ, <- Z.add_1_r, inject_Z_plus.
    change (inject_Z 1) with 1%Q. split; lra.
Qed.

Lemma exactMeanPct_bounds (xs : list float) :
  xs <> [] ->
  Forall (fun x => (1 # 10 <= exactValue x)%Q /\ (exactValue x <= 1)%Q) xs ->
  (10 <= exactMeanPct xs)%Q /\ (exactMeanPct xs <= 100)%Q.
Proof.
  intros Hne Hall. destruct (exactSum_bounds xs Hall) as [Hlo Hhi].
  unfold exactMeanPct.
  set (n := inject_Z (Z.of_nat (List.length xs))) in *.
  assert (Hn : (0 < n)%Q).
  { subst n. change 0%Q with (inject_Z 0). rewrite <- Zlt_Qlt.
    destruct xs; [congruence | cbn [List.length]; lia]. }
  assert (H1 : (1 # 10 <= exactSum xs / n)%Q) by (apply Qle_shift_div_l; [exact Hn | lra]).
  assert (H2 : (exactSum xs / n <= 1)%Q) by (apply Qle_shift_div_r; [exact Hn | lra]).
  split; lra.
Qed.

(** *** Sums of at most 64 scores, in binary64 arithmetic *)

Lemma mergeSums_in (x : float) (l1 l2 acc : list float) :
  In x acc \/ In x l1 \/ In x l2 -> In x (mergeSums l1 l2 acc).
Proof.
  revert l2 acc. induction l1 as [|a l1 IH1]; intros l2 acc.
  - cbn [mergeSums]. rewrite rev_append_rev, in_app_iff, <- in_rev. cbn. tauto.
  - revert acc. induction l2 as [|b l2 IH2]; intros acc.
    + cbn [mergeSums]. rewrite rev_append_rev, in_app_iff, <- in_rev. cbn. tauto.
    + cbn [mergeSums]. destruct (PrimFloat.Leibniz.eqb a b) eqn:E.
      * apply Leibniz.eqb_spec in E. subst b.
        intros H. apply IH1. cbn in *. tauto.
      * destruct (a <? b)%float.
        -- intros H. apply IH1. cbn in *. tauto.
        -- intros H. apply IH2. cbn in *. tauto.
Qed.

Lemma shiftSums_in (x y : float) (sums acc : list float) :
  In y acc \/ (exists s, In s sums /\ y = (s + x)%float) ->
  In y (shiftSums x sums acc).
Proof.
  revert acc. induction sums as [|s sums IH]; intros acc.
  - cbn [shiftSums]. intros [H|(s & Hs & _)]; [exact H | destruct Hs].
  - cbn [shiftSums]. intros H.
    assert (Hy : forall acc', (In y acc \/ y = (s + x)%float -> In y acc') ->
                              In y (shiftSums x sums acc')).
    { intros acc' Hacc. apply IH. destruct H as [H|(s0 & [<-|Hs0] & ->)].
      - left. apply Hacc. now left.
      - left. apply Hacc. now right.
      - right. eauto. }
    destruct acc as [|z acc'].
    + apply Hy. intros [Hn| ->]; [destruct Hn | now left].
    + destruct (PrimFloat.Leibniz.eqb (s + x) z) eqn:E.
      * apply Leibniz.eqb_spec in E. apply Hy. intros [Hin| ->]; [exact Hin|].
        rewrite E. now left.
      * apply Hy. intros [Hin| ->]; [now right | now left].
Qed.

Lemma nextSums_in (sums : list float) (s x : float) :
  In s sums -> In x scoreTable -> In (s + x)%float (nextSums sums).
Proof.
  intros Hs Hx. unfold nextSums.
  assert (Hgen : forall tbl acc,
             In (s + x)%float acc \/ In x tbl ->
             In (s + x)%float
                (fold_left (fun acc x => mergeSums (rev_append (shiftSums x sums []) []) acc [])
                           tbl acc)).
  { induction tbl as [|y tbl IH]; intros acc; cbn [fold_left].
    - intros [H|H]; [exact H | destruct H].
    - intros [H|[->|H]]; apply IH.
      + left. apply mergeSums_in. tauto.
      + left. apply mergeSums_in. right. left.
        rewrite rev_append_rev, app_nil_r, <- in_rev.
        apply shiftSums_in. right. eauto.
      + now right. }
  apply Hgen. now right.
Qed.

Lemma cplToMoveScore_in_table (c : Z) : In (cplToMoveScore c) scoreTable.
Proof.
  destruct (cplToMoveScore_cases c) as [[_ E]|[[_ E]|[[_ E]|[[_ E]|[[_ E]|[_ E]]]]]];
    rewrite E; cbn; tauto.
Qed.

(** The check covers every way of adding up to [fuel] scores of the
    table to a sum of the list. *)
Lemma checkSums_sound (ok : nat -> float -> bool) (fuel n : nat) (sums : list float) :
  checkSums ok fuel n sums = true ->
  forall (xs : list float) (s : float),
    Forall (fun x => In x scoreTable) xs ->
    (1 <= List.length xs <= fuel)%nat ->
    In s sums ->
    ok (n + List.length xs)%nat (pctOf (n + List.length xs) (fold_left PrimFloat.add xs s)) = true.
Proof.
  revert n sums. induction fuel as [|fuel IH]; intros n sums Hc xs s Hxs Hlen Hs; [lia|].
  cbn [checkSums] in Hc.
  destruct (forallb (fun sum => ok (S n) (pctOf (S n) sum)) (nextSums sums)) eqn:Hall;
    [|discriminate].
  destruct xs as [|x xs]; [cbn in Hlen; lia|].
  inversion Hxs as [|? ? Hx Hxs']; subst.
  pose proof (nextSums_in sums s x Hs Hx) as Hin.
  cbn [fold_left List.length]. destruct xs as [|x' xs].
  - cbn [fold_left List.length]. replace (n + 1)%nat with (S n) by lia.
    rewrite forallb_forall in Hall. now apply Hall.
  - replace (n + S (List.length (x' :: xs)))%nat with (S n + List.length (x' :: xs))%nat by lia.
    apply (IH (S n) (nextSums sums) Hc); auto.
    cbn [List.length] in *. lia.
Qed.

(** With at most 64 scores of the table, the accuracy as the source
    computes it is at most 100, and at least 9.999999999999; with at most
    47 it is at least 10. *)
Lemma accuracyPct_bounds_64 (moveScores : list MoveScore) :
  Forall (fun m => In (score m) scoreTable) moveScores ->
  (1 <= List.length moveScores <= 64)%nat ->
  accuracyBounds (List.length moveScores) (accuracyPct moveScores) = true.
Proof.
  intros Hall Hlen.
  assert (Hc : checkSums accuracyBounds 64 0 [0%float] = true) by (vm_compute; reflexivity).
  pose proof (checkSums_sound accuracyBounds 64 0 [0%float] Hc (map score moveScores) 0%float)
    as H.
  rewrite length_map in H. cbn [Nat.add] in H.
  destruct moveScores as [|m l]; [cbn in Hlen; lia|].
  unfold accuracyPct. rewrite fold_left_scores. apply H; [|exact Hlen|now left].
  apply Forall_forall. intros x Hx. apply in_map_iff in Hx.
  destruct Hx as (m' & <- & Hm). rewrite Forall_forall in Hall. now apply Hall.
Qed.




(* ------------------------------------------------------------------ *)
(** ** The best-move pattern *)

Lemma isFile_not_space (c : ascii) : isFile c = true -> isSpace c = false.
Proof. destruct c as [[] [] [] [] [] [] [] []]; intros H; (discriminate H || reflexivity). Qed.

Lemma isRank_not_space (c : ascii) : isRank c = true -> isSpace c = false.
Proof. destruct c as [[] [] [] [] [] [] [] []]; intros H; (discriminate H || reflexivity). Qed.

(** What the pattern needs of a line to match: after ["bestmove"] and white
    space, a file, a rank and a file; then either a character of the class
    [[1-8qrbn]] before a word boundary, or a word boundary at once. *)
Lemma matchBestMove_shape (line m : string) :
  matchBestMove line = Some m ->
  exists r0 c1 c2 c3 r3,
    stripPrefix "bestmove" line = Some r0
    /\ snd (span isSpace r0) = String c1 (String c2 (String c3 r3))
    /\ isFile c1 = true /\ isRank c2 = true /\ isFile c3 = true
    /\ ((exists c4 r4, r3 = String c4 r4 /\ isRankOrPromo c4 = true
                       /\ boundaryAfterWord r4 = true
                       /\ m = String c1 (String c2 (String c3 (String c4 EmptyString))))
        \/ m = String c1 (String c2 (String c3 EmptyString))).
Proof.
  unfold matchBestMove, skipSpaces1.
  destruct (stripPrefix "bestmove" line) as [r0|]; [|discriminate].
  destruct (span isSpace r0) as [sp rest] eqn:Es.
  destruct sp as [|s0 sp]; [discriminate|].
  destruct rest as [|c1 [|c2 [|c3 r3]]]; try discriminate.
  destruct (isFile c1) eqn:E1; [|discriminate].
  destruct (isRank c2) eqn:E2; [|discriminate].
  destruct (isFile c3) eqn:E3; [|discriminate].
  cbn [andb]. intros H. exists r0, c1, c2, c3, r3. rewrite Es. cbn [snd].
  do 2 (split; [reflexivity|]).
  split; [exact E1 | split; [exact E2 | split; [exact E3|]]].
  destruct r3 as [|c4 r4].
  - destruct (boundaryAfterWord ""); inversion H; subst. now right.
  - destruct (isRankOrPromo c4 && boundaryAfterWord r4) eqn:E4.
    + inversion H; subst. apply andb_prop in E4. left. exists c4, r4. tauto.
    + destruct (boundaryAfterWord (String c4 r4)); inversion H; subst. now right.
Qed.

(** The token of a line the pattern matches begins with the three
    characters the pattern needs. *)
Lemma tokenOf_matched (line r0 : string) (c1 c2 c3 : ascii) (r3 : string) :
  stripPrefix "bestmove" line = Some r0 ->
  snd (span isSpace r0) = String c1 (String c2 (String c3 r3)) ->
  isFile c1 = true -> isRank c2 = true -> isFile c3 = true ->
  tokenOf line
  = String c1 (String c2 (String c3 (fst (span (fun c => negb (isSpace c)) r3)))).
Proof.
  intros E0 Er H1 H2 H3. unfold tokenOf. rewrite E0, Er. cbn [span].
  rewrite (isFile_not_space c1 H1), (isRank_not_space c2 H2), (isFile_not_space c3 H3).
  cbn [negb]. destruct (span (fun c => negb (isSpace c)) r3). reflexivity.
Qed.

(** When the token is neither a coordinate move nor one followed by
    punctuation, the text the pattern extracts, if any, has no square as
    its destination. *)
Lemma matchBestMove_no_square (line m : string) :
  matchBestMove line = Some m ->
  isCoordinateMove (tokenOf line) = false ->
  moveThenPunctuation (tokenOf line) = false ->
  isSquare (slice 2 4 m) = false.
Proof.
  intros Hm Hc Hp.
  destruct (matchBestMove_shape line m Hm)
    as (r0 & c1 & c2 & c3 & r3 & E0 & Er & H1 & H2 & H3
        & [(c4 & r4 & -> & H4 & Hb & ->)| ->]); [|reflexivity].
  rewrite (tokenOf_matched line r0 c1 c2 c3 _ E0 Er H1 H2 H3) in Hc, Hp.
  cbn [slice substring isSquare Nat.sub]. rewrite H3. cbn [andb].
  destruct (isRank c4) eqn:E4; [|reflexivity].
  exfalso. cbn [span] in Hc, Hp. rewrite (isRank_not_space c4 E4) in Hc, Hp.
  cbn [negb] in Hc, Hp.
  destruct r4 as [|c5 r5].
  - cbn [span fst isCoordinateMove] in Hc. rewrite H1, H2, H3, E4 in Hc. discriminate Hc.
  - cbn [boundaryAfterWord] in Hb. cbn [span] in Hc, Hp.
    destruct (isSpace c5) eqn:E5; cbn [negb] in Hc, Hp.
    + cbn [fst isCoordinateMove] in Hc. rewrite H1, H2, H3, E4 in Hc. discriminate Hc.
    + destruct (span (fun c => negb (isSpace c)) r5).
      cbn [fst moveThenPunctuation] in Hp. rewrite H1, H2, H3, E4, Hb in Hp.
      discriminate Hp.
Qed.

(** C10.  The token of the best-move line is not a coordinate move (file,
    rank, file, rank and possibly a promotion letter), as ["(none)"] and
    ["0000"] are not; nor is it such a move with punctuation behind it,
    which no engine prints.  The chess library moves between squares only.
    Then the pattern extracts nothing, or it extracts text whose
    destination is no square (three characters, or a promotion letter where
    the rank should be), which the library refuses.  Either way no position
    after a suggested move is obtained: the loop body ends without an entry
    and without failing, after the one search, and the loop goes on with
    the next record.  A token that does not begin with a file, a rank and a
    file has nothing extracted from it at all. *)
Theorem non_move_token_unscored {chess : ChessLib} (depth : N)
        (rec : MoveRecord) (rest : list MoveRecord) (i : nat)
        (acc : list MoveScore) (s s1 : session) (line : string) :
  movesBetweenSquares chess ->
  requestBestMove depth rec s = (Ok line, s1) ->
  isCoordinateMove (tokenOf line) = false ->
  moveThenPunctuation (tokenOf line) = false ->
  (matchBestMove line = None
   \/ exists text, matchBestMove line = Some text /\ isSquare (slice 2 4 text) = false)
  /\ fenAfterBestOf rec line = None
  /\ scoreRecord depth i rec s = (Ok None, s1)
  /\ log s1 = log s ++ [Write ("position fen " ++ fromFen rec);
                        Write ("go depth " ++ showN depth);
                        SetOnLine 60000; Resolve line]
  /\ scoreMoves depth (rec :: rest) i acc s = scoreMoves depth rest (S i) acc s1
  /\ (beginsWithStem (tokenOf line) = false -> matchBestMove line = None).
Proof.
  intros Hlib E1 Hc Hp.
  assert (Hex : matchBestMove line = None
                \/ exists text, matchBestMove line = Some text
                                /\ isSquare (slice 2 4 text) = false).
  { destruct (matchBestMove line) as [text|] eqn:Em; [right | now left].
    exists text. split; [reflexivity|]. now apply matchBestMove_no_square with (line := line). }
  assert (Ef : fenAfterBestOf rec line = None).
  { unfold fenAfterBestOf. destruct Hex as [->|(text & -> & Hsq)]; [reflexivity|].
    now apply Hlib. }
  pose proof (scoreRecord_unscored depth i rec s s1 line E1 Ef) as Er.
  split; [exact Hex | split; [exact Ef | split; [exact Er | split; [|split]]]].
  - now apply requestBestMove_log.
  - now apply scoreMoves_cons with (o := None).
  - intros Hstem. destruct (matchBestMove line) as [text|] eqn:Em; [|reflexivity].
    exfalso.
    destruct (matchBestMove_shape line text Em)
      as (r0 & c1 & c2 & c3 & r3 & E0 & Es & H1 & H2 & H3 & _).
    rewrite (tokenOf_matched line r0 c1 c2 c3 r3 E0 Es H1 H2 H3) in Hstem.
    cbn [beginsWithStem] in Hstem. rewrite H1, H2, H3 in Hstem. discriminate Hstem.
Qed.

Lemma squaresChess_moves_between_squares : movesBetweenSquares squaresChess.
Proof.
  intros fen from to promotion H. cbn [applyMove squaresChess].
  rewrite H. now rewrite andb_false_r.
Qed.

Lemma non_move_token_unscored_witness :
  scoreRecord (chess := squaresChess) 18 0 sampleRecord
    (fresh ["info depth 18 score mate 0"; "bestmove (none)"; "bestmove d2d4"])
  = (Ok None,
     mkSession ["bestmove d2d4"]
       [Write ("position fen " ++ fromFen sampleRecord); Write "go depth 18";
        SetOnLine 60000; Resolve "bestmove (none)"])
  /\ scoreRecord (chess := squaresChess) 18 0 sampleRecord
       (fresh ["bestmove a1aq"; "bestmove d2d4"])
     = (Ok None,
        mkSession ["bestmove d2d4"]
          [Write ("position fen " ++ fromFen sampleRecord); Write "go depth 18";
           SetOnLine 60000; Resolve "bestmove a1aq"])
  /\ scoreRecord (chess := squaresChess) 18 0 sampleRecord
       (fresh ["bestmove e2e4x ponder e7e5"; "bestmove d2d4"])
     = (Ok None,
        mkSession ["bestmove d2d4"]
          [Write ("position fen " ++ fromFen sampleRecord); Write "go depth 18";
           SetOnLine 60000; Resolve "bestmove e2e4x ponder e7e5"]).
Proof.
  split; [|split].
  - exact (proj1 (proj2 (proj2
             (non_move_token_unscored (chess := squaresChess) 18 sampleRecord [] 0 []
                (fresh ["info depth 18 score mate 0"; "bestmove (none)"; "bestmove d2d4"])
                _ "bestmove (none)" squaresChess_moves_between_squares
                eq_refl eq_refl eq_refl)))).
  - exact (proj1 (proj2 (proj2
             (non_move_token_unscored (chess := squaresChess) 18 sampleRecord [] 0 []
                (fresh ["bestmove a1aq"; "bestmove d2d4"])
                _ "bestmove a1aq" squaresChess_moves_between_squares
                eq_refl eq_refl eq_refl)))).
  - exact (proj1 (proj2 (proj2
             (non_move_token_unscored (chess := squaresChess) 18 sampleRecord [] 0 []
                (fresh ["bestmove e2e4x ponder e7e5"; "bestmove d2d4"])
                _ "bestmove e2e4x ponder e7e5" squaresChess_moves_between_squares
                eq_refl eq_refl eq_refl)))).
Defined.

(** The pattern writes the destination rank and the promotion letter as one
    optional class [[1-8qrbn]?]: it extracts [a1aq] from ["bestmove a1aq"],
    and the loop asks the chess library to move from [a1] to [aq]; it
    extracts nothing from a promotion such as ["bestmove e7e8q"], nor from
    ["bestmove (none)"]. *)
Example bestmove_class_of_the_fourth_character :
  matchBestMove "bestmove a1aq" = Some "a1aq"
  /\ (forall (chess : ChessLib) (rec : MoveRecord),
         fenAfterBestOf rec "bestmove a1aq" = applyMove (fromFen rec) "a1" "aq" None)
  /\ matchBestMove "bestmove e7e8q" = None
  /\ matchBestMove "bestmove (none)" = None.
Proof. repeat split. Qed.

(* ------------------------------------------------------------------ *)
(** ** Two games of one move *)

(** Both evaluations equal: no loss, score 1.0, accuracy 100. *)
Example one_move_equal_evaluations :
  analyze (chess := lenientChess) 18 [sampleRecord]
    (fresh ["readyok"; "bestmove d2d4";
            "info depth 18 score cp 25"; "bestmove d7d5";
            "info depth 18 score cp 25"; "bestmove e7e5"])
  = (Ok 100%float,
     mkSession []
       [Spawn STOCKFISH_CMD; Write "uci"; Sleep 200; Write "isready"; SetOnLine 5000;
        Resolve "readyok";
        Write ("position fen " ++ fromFen sampleRecord); Write "go depth 18";
        SetOnLine 60000; Resolve "bestmove d2d4";
        Write ("position fen " ++ fromFen sampleRecord); Write "go depth 18";
        SetOnLine 60000; Resolve "bestmove d7d5";
        Write ("position fen " ++ toFen sampleRecord); Write "go depth 18";
        SetOnLine 60000; Resolve "bestmove e7e5";
        Write "quit"; Sleep 50]).
Proof. reflexivity. Qed.

(** The played move 150 centipawns worse for the mover (here the second
    player, so the evaluations rise): loss 150, score 0.30, accuracy 30. *)
Example one_move_150_worse :
  fst (analyze (chess := lenientChess) 18
         [mkMoveRecord "e5" (toFen sampleRecord) (fromFen sampleRecord) Black]
         (fresh ["readyok"; "bestmove e7e5";
                 "info depth 18 score cp -20"; "bestmove g1f3";
                 "info depth 18 score cp 130"; "bestmove d2d4"]))
  = Ok 30%float
  /\ centipawnLoss Black (-20) 130 = 150
  /\ cplToMoveScore 150 = 0.30%float.
Proof. repeat split. Qed.

(* ------------------------------------------------------------------ *)
(** ** The patterns on engine lines *)

Example bestmove_with_ponder :
  matchBestMove "bestmove e2e4 ponder e7e5" = Some "e2e4".
Proof. reflexivity. Qed.

Example bestmove_without_space : matchBestMove "bestmovee2e4" = None.
Proof. reflexivity. Qed.

Example bestmove_three_characters : matchBestMove "bestmove a1a" = Some "a1a".
Proof. reflexivity. Qed.

Example bestmove_move_then_punctuation : matchBestMove "bestmove e2e4+" = Some "e2e4".
Proof. reflexivity. Qed.

Example score_first_announcement :
  parseScoreFromInfoLine "info score cp x score cp -14 score cp 9" = Some (-14).
Proof. reflexivity. Qed.

Example score_cp_before_mate :
  parseScoreFromInfoLine "info score mate 2 score cp 50" = Some 50.
Proof. reflexivity. Qed.

Example score_none : parseScoreFromInfoLine "info depth 3 currmove e2e4" = None.
Proof. reflexivity. Qed.

(* ------------------------------------------------------------------ *)
(** ** The output stream: splitting into lines *)

Import Stream.

Lemma splitLF_nonempty (s : string) : splitLF s <> [].
Proof.
  induction s as [|c t IH]; cbn [splitLF]; [discriminate|].
  destruct (Ascii.eqb c LF); [discriminate|].
  destruct (splitLF t); [congruence | discriminate].
Qed.

Lemma splitLF_app (a b : string) :
  splitLF (a ++ b) =
    removelast (splitLF a) ++ splitLF (last (splitLF a) EmptyString ++ b).
Proof.
  induction a as [|c t IH]; [reflexivity|].
  cbn [append splitLF]. destruct (Ascii.eqb c LF) eqn:Ec.
  - pose proof (splitLF_nonempty t) as Hne.
    destruct (splitLF t) as [|p r] eqn:E; [congruence|].
    rewrite IH. reflexivity.
  - pose proof (splitLF_nonempty t) as Hne.
    destruct (splitLF t) as [|p r] eqn:E; [congruence|].
    rewrite IH. destruct r as [|q r].
    + cbn [removelast last app append splitLF]. rewrite Ec.
      pose proof (splitLF_nonempty (p ++ b)) as Hne'.
      destruct (splitLF (p ++ b)); [congruence | reflexivity].
    + reflexivity.
Qed.

Lemma popLast_app (x y : list string) :
  y <> [] -> popLast (x ++ y) = (x ++ fst (popLast y), snd (popLast y)).
Proof.
  intros Hy. unfold popLast. cbn [fst snd].
  rewrite removelast_app by assumption. f_equal.
  induction x as [|a x IH]; [reflexivity|].
  cbn [app last]. destruct (x ++ y) eqn:E; [|exact IH].
  apply app_eq_nil in E. destruct E; congruence.
Qed.

(** Cutting the output into lines: [c1] and then [c2] give the same
    complete lines, in the same order, and leave the same buffer as
    [c1 ++ c2] at once. *)
Lemma feed_chunks (buffer c1 c2 : string) :
  feed buffer (c1 ++ c2) =
    (fst (feed buffer c1) ++ fst (feed (snd (feed buffer c1)) c2),
     snd (feed (snd (feed buffer c1)) c2)).
Proof.
  unfold feed.
  replace (buffer ++ c1 ++ c2)%string with ((buffer ++ c1) ++ c2)%string.
  - rewrite splitLF_app. rewrite popLast_app by apply splitLF_nonempty.
    reflexivity.
  - induction buffer as [|c b IH]; [reflexivity|]. cbn [append]. now rewrite IH.
Qed.

Lemma splitLF_join (s : string) :
  joinLF (removelast (splitLF s)) (last (splitLF s) EmptyString) = s.
Proof.
  induction s as [|c t IH]; [reflexivity|].
  cbn [splitLF]. pose proof (splitLF_nonempty t) as Hne.
  destruct (Ascii.eqb_spec c LF) as [->|Hc].
  - destruct (splitLF t) as [|p r] eqn:E; [congruence|].
    cbn [removelast last joinLF append] in *. now rewrite IH.
  - destruct (splitLF t) as [|p r] eqn:E; [congruence|].
    destruct r as [|q r].
    + cbn [removelast last joinLF] in *. now rewrite IH.
    + cbn [removelast last joinLF append] in *. now rewrite IH.
Qed.

Lemma splitLF_pieces (s : string) :
  Forall (fun piece => hasChar LF piece = false) (splitLF s).
Proof.
  induction s as [|c t IH]; [repeat constructor|].
  cbn [splitLF]. destruct (Ascii.eqb c LF) eqn:Ec.
  - constructor; [reflexivity | exact IH].
  - destruct (splitLF t) as [|p r]; [repeat constructor; cbn; now rewrite Ec|].
    inversion IH; subst. constructor; [cbn; now rewrite Ec | assumption].
Qed.

Lemma Forall_removelast {X : Type} (P : X -> Prop) (l : list X) :
  Forall P l -> Forall P (removelast l).
Proof.
  induction 1 as [|a l Ha Hl IH]; [constructor|].
  cbn [removelast]. destruct l; [constructor | constructor; assumption].
Qed.

Lemma Forall_last {X : Type} (P : X -> Prop) (l : list X) (d : X) :
  Forall P l -> P d -> P (last l d).
Proof.
  induction 1 as [|a l Ha Hl IH]; intros Hd; [exact Hd|].
  cbn [last]. destruct l; [exact Ha | now apply IH].
Qed.

Lemma feed_pieces (buffer chunk : string) :
  Forall (fun line => hasChar LF line = false) (fst (feed buffer chunk))
  /\ hasChar LF (snd (feed buffer chunk)) = false.
Proof.
  unfold feed, popLast. cbn [fst snd]. split.
  - apply Forall_removelast, splitLF_pieces.
  - apply (Forall_last (fun piece => hasChar LF piece = false));
      [apply splitLF_pieces | reflexivity].
Qed.

(** X2.  The handler loses and invents no text: the complete lines, each
    followed by the line feed that ended it, and then the new buffer, are
    the old buffer followed by the chunk.  No complete line and no buffer
    left behind contains a line feed. *)
Theorem feed_conserves_text (buffer chunk : string) :
  joinLF (fst (feed buffer chunk)) (snd (feed buffer chunk)) = (buffer ++ chunk)%string
  /\ Forall (fun line => hasChar LF line = false) (fst (feed buffer chunk))
  /\ hasChar LF (snd (feed buffer chunk)) = false.
Proof.
  split; [unfold feed, popLast; cbn [fst snd]; apply splitLF_join | apply feed_pieces].
Qed.

(* ------------------------------------------------------------------ *)
(** ** The output stream: trimming *)

Lemma trimStart_begins (s : string) : beginsWithSpace (trimStart s) = false.
Proof.
  induction s as [|c t IH]; [reflexivity|].
  cbn [trimStart]. destruct (isSpace c) eqn:E; [exact IH | cbn; exact E].
Qed.

Lemma trimStart_id (s : string) : beginsWithSpace s = false -> trimStart s = s.
Proof. destruct s as [|c t]; cbn; [reflexivity | now intros ->]. Qed.

Lemma trimStart_spaces (ws s : string) :
  allChars isSpace ws = true -> trimStart (ws ++ s) = trimStart s.
Proof.
  induction ws as [|c ws IH]; [reflexivity|].
  cbn [allChars append trimStart]. intros H. apply andb_prop in H.
  destruct H as [-> H]. now apply IH.
Qed.

Lemma trimEnd_spaces (ws : string) : allChars isSpace ws = true -> trimEnd ws = EmptyString.
Proof.
  induction ws as [|c ws IH]; [reflexivity|].
  cbn [allChars trimEnd]. intros H. apply andb_prop in H.
  destruct H as [Hc H]. now rewrite (IH H), Hc.
Qed.

Lemma trimEnd_ends (s : string) : endsWithSpace (trimEnd s) = false.
Proof.
  induction s as [|c t IH]; [reflexivity|].
  cbn [trimEnd]. destruct (trimEnd t) as [|d t'] eqn:E.
  - destruct (isSpace c) eqn:Ec; [reflexivity | cbn; exact Ec].
  - exact IH.
Qed.

Lemma trimEnd_begins (s : string) :
  beginsWithSpace s = false -> beginsWithSpace (trimEnd s) = false.
Proof.
  destruct s as [|c t]; [reflexivity|]. cbn [beginsWithSpace trimEnd]. intros Hc.
  destruct (trimEnd t); [rewrite Hc; cbn; exact Hc | cbn; exact Hc].
Qed.

Lemma trimEnd_core (core ws : string) :
  endsWithSpace core = false -> allChars isSpace ws = true ->
  trimEnd (core ++ ws) = core.
Proof.
  intros Hc Hws. induction core as [|c t IH]; [now apply trimEnd_spaces|].
  cbn [append trimEnd]. destruct t as [|d t].
  - cbn [append]. rewrite (trimEnd_spaces ws Hws). cbn in Hc. now rewrite Hc.
  - rewrite IH by exact Hc. reflexivity.
Qed.

Lemma hasChar_trimStart (c : ascii) (s : string) :
  hasChar c s = false -> hasChar c (trimStart s) = false.
Proof.
  induction s as [|d t IH]; [reflexivity|].
  cbn [hasChar trimStart]. intros H. apply orb_false_elim in H. destruct H as [Hd Ht].
  destruct (isSpace d); [now apply IH | cbn; now rewrite Hd, Ht].
Qed.

Lemma hasChar_trimEnd (c : ascii) (s : string) :
  hasChar c s = false -> hasChar c (trimEnd s) = false.
Proof.
  induction s as [|d t IH]; [reflexivity|].
  cbn [hasChar trimEnd]. intros H. apply orb_false_elim in H. destruct H as [Hd Ht].
  specialize (IH Ht). destruct (trimEnd t) as [|e t'].
  - destruct (isSpace d); [reflexivity | cbn; now rewrite Hd].
  - cbn [hasChar] in *. now rewrite Hd, IH.
Qed.

Lemma append_empty (s : string) : (s ++ "")%string = s.
Proof. induction s as [|c t IH]; [reflexivity|]. cbn. now rewrite IH. Qed.

Lemma trim_core (before core after : string) :
  allChars isSpace before = true ->
  allChars isSpace after = true ->
  beginsWithSpace core = false ->
  endsWithSpace core = false ->
  trim (before ++ core ++ after) = core.
Proof.
  intros Hb Ha Hcb Hce. unfold trim. rewrite trimStart_spaces by exact Hb.
  destruct core as [|c t].
  - cbn [append]. rewrite <- (append_empty after), trimStart_spaces by exact Ha.
    reflexivity.
  - rewrite trimStart_id by exact Hcb. now apply trimEnd_core.
Qed.

(** X3.  [trim] removes exactly the white space around a text: white space
    (carriage returns included), then a text that neither begins nor ends
    with white space, then white space, is trimmed to that text.  So a line
    the engine ends with a carriage return reaches the handler without
    it. *)
Theorem trim_surrounding_space (before core after : string) :
  allChars isSpace before = true ->
  allChars isSpace after = true ->
  beginsWithSpace core = false ->
  endsWithSpace core = false ->
  trim (before ++ core ++ after) = core.
Proof. apply trim_core. Qed.

Lemma trim_surrounding_space_witness :
  trim (String "009" " readyok" ++ String "013" "") = "readyok".
Proof.
  exact (trim_surrounding_space (String "009" " ") "readyok" (String "013" "")
           eq_refl eq_refl eq_refl eq_refl).
Defined.

(** X4.  Whatever the chunks are, a line handed to a handler contains no
    line feed and has no white space at either end; trimming it again
    changes nothing. *)
Theorem handed_lines_are_trimmed (buffer chunk line : string) :
  In line (fst (feed buffer chunk)) ->
  hasChar LF (trim line) = false
  /\ beginsWithSpace (trim line) = false
  /\ endsWithSpace (trim line) = false
  /\ trim (trim line) = trim line.
Proof.
  intros Hin.
  assert (Hlf : hasChar LF line = false).
  { destruct (feed_pieces buffer chunk) as [H _].
    rewrite Forall_forall in H. now apply H. }
  assert (Hb : beginsWithSpace (trim line) = false)
    by (apply trimEnd_begins, trimStart_begins).
  assert (He : endsWithSpace (trim line) = false) by apply trimEnd_ends.
  split; [now apply hasChar_trimEnd, hasChar_trimStart | split; [exact Hb | split; [exact He|]]].
  pose proof (trim_core EmptyString (trim line) EmptyString eq_refl eq_refl Hb He) as H.
  cbn [append] in H. now rewrite append_empty in H.
Qed.

Lemma handed_lines_are_trimmed_witness :
  hasChar LF (trim (String "013" "")) = false
  /\ trim (String " " (String "013" "")) = EmptyString.
Proof.
  destruct (handed_lines_are_trimmed "bestmove e2e4" (String LF (String "013" (String LF "id")))
              (String "013" "") (or_intror (or_introl eq_refl))) as (H1 & _ & _ & _).
  split; [exact H1 | reflexivity].
Defined.

(* ------------------------------------------------------------------ *)
(** ** The output stream: handing lines to the handler *)

Section HandlerFacts.

Context {St A : Type}.
Variable h : St -> string -> St * option A.

Lemma forEachLine_no_handler (lines : list string) (resolved : option A) :
  forEachLine St A h lines None resolved = (None, resolved).
Proof. induction lines as [|l lines IH]; [reflexivity | exact IH]. Qed.

Lemma forEachLine_deliver (lines : list string) (st : St) :
  match deliver h st (map trim lines) with
  | Some (a, _, _) => forEachLine St A h lines (Some st) None = (None, Some a)
  | None => exists st', forEachLine St A h lines (Some st) None = (Some st', None)
  end.
Proof.
  revert st. induction lines as [|l lines IH]; intros st; cbn [map deliver forEachLine].
  - eauto.
  - destruct (h st (trim l)) as [st' [a|]].
    + apply forEachLine_no_handler.
    + apply IH.
Qed.

(** X5.  One chunk of output against the model of the waits.  With a
    handler installed, the chunk resolves the pending promise exactly when
    [deliver] resolves on the trimmed complete lines, with the same value;
    the slot is then empty and the complete lines that follow in the chunk
    reach no handler.  Otherwise the handler stays installed.  With no
    handler installed the chunk only moves text into the buffer. *)
Theorem onData_deliver (chunk : string) (e : engine St) :
  let lines := fst (feed (buffer St e) chunk) in
  let buffer' := snd (feed (buffer St e) chunk) in
  match onLine St e with
  | Some st =>
      match deliver h st (map trim lines) with
      | Some (a, _, _) => onData St A h chunk e = (mkEngine St buffer' None, Some a)
      | None => exists st', onData St A h chunk e = (mkEngine St buffer' (Some st'), None)
      end
  | None => onData St A h chunk e = (mkEngine St buffer' None, None)
  end.
Proof.
  intros lines buffer'. unfold onData.
  destruct (feed (buffer St e) chunk) as [ls b] eqn:E. subst lines buffer'. cbn [fst snd].
  destruct (onLine St e) as [st|].
  - pose proof (forEachLine_deliver ls st) as H.
    destruct (deliver h st (map trim ls)) as [[[a l] rest]|].
    + now rewrite H.
    + destruct H as [st' H]. exists st'. now rewrite H.
  - now rewrite forEachLine_no_handler.
Qed.

Lemma forEachLine_app (l1 l2 : list string) (slot : option St) (resolved : option A) :
  forEachLine St A h (l1 ++ l2) slot resolved
  = forEachLine St A h l2 (fst (forEachLine St A h l1 slot resolved))
                          (snd (forEachLine St A h l1 slot resolved)).
Proof.
  revert slot resolved. induction l1 as [|l l1 IH]; intros slot resolved; [reflexivity|].
  cbn [app forEachLine]. destruct slot as [st|]; [|apply IH].
  destruct (h st (trim l)) as [st' [a|]]; apply IH.
Qed.

(** A loop that ends with a handler in the slot has resolved nothing, and a
    loop that has resolved leaves the slot empty. *)
Lemma forEachLine_slot (lines : list string) (slot : option St) :
  match snd (forEachLine St A h lines slot None) with
  | Some _ => fst (forEachLine St A h lines slot None) = None
  | None => True
  end.
Proof.
  revert slot. induction lines as [|l lines IH]; intros slot; [exact I|].
  cbn [forEachLine]. destruct slot as [st|].
  - destruct (h st (trim l)) as [st' [a|]]; [|apply IH].
    now rewrite forEachLine_no_handler.
  - apply IH.
Qed.

(** The handler called on [c1] and then on [c2], with nothing done in
    between, leaves the engine object as one call on [c1 ++ c2], and the
    first value resolved is the same. *)
Lemma onData_app (c1 c2 : string) (e : engine St) :
  onData St A h (c1 ++ c2) e
  = (fst (onData St A h c2 (fst (onData St A h c1 e))),
     match snd (onData St A h c1 e) with
     | Some a => Some a
     | None => snd (onData St A h c2 (fst (onData St A h c1 e)))
     end).
Proof.
  unfold onData. rewrite feed_chunks.
  destruct (feed (buffer St e) c1) as [l1 b1]. cbn [fst snd].
  rewrite forEachLine_app.
  pose proof (forEachLine_slot l1 (onLine St e)) as Hslot.
  destruct (forEachLine St A h l1 (onLine St e) None) as [slot1 r1]. cbn [fst snd buffer onLine] in *.
  destruct (feed b1 c2) as [l2 b2]. cbn [fst snd].
  destruct r1 as [a|].
  - subst slot1. rewrite !forEachLine_no_handler. reflexivity.
  - destruct (forEachLine St A h l2 slot1 None) as [slot2 r2]. reflexivity.
Qed.

(** X1.  As long as a chunk resolves no wait, it does not matter where it
    ends: when the handler, called on [c1], resolves nothing, calling it on
    [c2] next gives the same engine object and the same resolution as one
    call on [c1 ++ c2], wherever the cut falls, inside a line or between
    two.  (A chunk that resolves the wait is another matter: the lines
    after the resolving line find the slot empty when they come in the same
    chunk, see [chunk_after_resolution_dropped], and find the handler the
    awaiting code has installed meanwhile when they come in a later
    one.) *)
Theorem onData_chunks (c1 c2 : string) (e : engine St) :
  snd (onData St A h c1 e) = None ->
  onData St A h (c1 ++ c2) e = onData St A h c2 (fst (onData St A h c1 e)).
Proof.
  intros Hnone. rewrite onData_app, Hnone.
  now destruct (onData St A h c2 (fst (onData St A h c1 e))).
Qed.

End HandlerFacts.

(** A readiness wait whose answer is completed by a chunk that also holds
    a best-move line: the wait is resolved and the best-move line reaches
    no handler. *)
Example chunk_after_resolution_dropped :
  onData unit string (fun _ line => (tt, if line =? "readyok" then Some line else None))
         (String "k" (String "013" (String LF ("bestmove e2e4" ++ String LF "info"))))
         (mkEngine unit "readyo" (Some tt))
  = (mkEngine unit "info" None, Some "readyok").
Proof. reflexivity. Qed.

Lemma onData_chunks_witness :
  onData unit string (fun _ line => (tt, if line =? "readyok" then Some line else None))
         ("uciok" ++ String LF "read" ++ "yok" ++ String LF "bestmove")
         (mkEngine unit "" (Some tt))
  = (mkEngine unit "bestmove" None, Some "readyok").
Proof.
  exact (onData_chunks (fun _ line => (tt, if line =? "readyok" then Some line else None))
           ("uciok" ++ String LF "read") ("yok" ++ String LF "bestmove")
           (mkEngine unit "" (Some tt)) eq_refl).
Defined.

(* ------------------------------------------------------------------ *)
(** ** The loop: order and indices of the entries *)

Section LoopFacts.

Context {chess : ChessLib}.
Variable depth : N.

Lemma scoreMoves_new_entries (recs : list MoveRecord) (i : nat) (acc out : list MoveScore)
      (s s' : session) :
  scoreMoves depth recs i acc s = (Ok out, s') ->
  exists new,
    out = acc ++ new
    /\ StronglySorted lt (map idx new)
    /\ Forall (fun ms => (i < idx ms <= i + List.length recs)%nat
                         /\ exists rec, nth_error recs (idx ms - 1 - i) = Some rec
                                        /\ move ms = moveSan rec) new
    /\ (List.length new <= List.length recs)%nat.
Proof.
  revert i acc s. induction recs as [|rec rest IH]; intros i acc s H.
  - inversion H; subst. exists []. rewrite app_nil_r. repeat split; constructor.
  - cbn [scoreMoves] in H. apply bind_ok in H. destruct H as (o & s1 & E1 & H).
    assert (Hshift : forall new,
               Forall (fun ms => (S i < idx ms <= S i + List.length rest)%nat
                                 /\ exists r, nth_error rest (idx ms - 1 - S i) = Some r
                                              /\ move ms = moveSan r) new ->
               Forall (fun ms => (i < idx ms <= i + List.length (rec :: rest))%nat
                                 /\ exists r, nth_error (rec :: rest) (idx ms - 1 - i) = Some r
                                              /\ move ms = moveSan r) new).
    { intros new Hn. eapply Forall_impl; [|exact Hn].
      intros ms [Hi (r & Hr & Hm)]. cbn [List.length]. split; [lia|].
      exists r. split; [|exact Hm].
      replace (idx ms - 1 - i)%nat with (S (idx ms - 1 - S i)) by lia. exact Hr. }
    destruct o as [m|].
    + destruct (IH _ _ _ H) as (new & -> & Hs & Hf & Hl).
      apply scoreRecord_scored in E1.
      destruct E1 as (? & ? & ? & ? & ? & ? & _ & _ & _ & _ & ->).
      eexists (_ :: new). rewrite <- app_assoc. split; [reflexivity|].
      cbn [map idx List.length]. split; [|split; [|lia]].
      * constructor; [exact Hs|]. apply Forall_forall. intros k Hk.
        apply in_map_iff in Hk. destruct Hk as (ms & <- & Hin).
        rewrite Forall_forall in Hf. destruct (Hf ms Hin) as [? _]. lia.
      * constructor; [|now apply Hshift].
        cbn [idx move]. split; [lia|]. exists rec.
        replace (i + 1 - 1 - i)%nat with 0%nat by lia. split; reflexivity.
    + destruct (IH _ _ _ H) as (new & -> & Hs & Hf & Hl).
      exists new. split; [reflexivity|]. split; [exact Hs|].
      split; [now apply Hshift | cbn [List.length]; lia].
Qed.

(** X6.  The entries of the output keep the order of the game: their
    indices are strictly increasing (so no record is scored twice) and lie
    between 1 and the number of records; each entry carries the notation of
    the record at its index; and there are at most as many entries as
    records. *)
Theorem scoreMoves_entries_in_order (recs : list MoveRecord) (out : list MoveScore)
        (s s' : session) :
  scoreMoves depth recs 0 [] s = (Ok out, s') ->
  StronglySorted lt (map idx out)
  /\ Forall (fun ms => (1 <= idx ms <= List.length recs)%nat
                       /\ exists rec, nth_error recs (idx ms - 1) = Some rec
                                      /\ move ms = moveSan rec) out
  /\ (List.length out <= List.length recs)%nat.
Proof.
  intros H. destruct (scoreMoves_new_entries _ _ _ _ _ _ H) as (new & -> & Hs & Hf & Hl).
  cbn [app]. split; [exact Hs | split; [|exact Hl]].
  eapply Forall_impl; [|exact Hf].
  intros ms [Hi (r & Hr & Hm)]. split; [lia|]. exists r.
  replace (idx ms - 1)%nat with (idx ms - 1 - 0)%nat by lia. auto.
Qed.

(* ------------------------------------------------------------------ *)
(** ** The loop: the number of searches *)

Lemma countGo_app (a b : list event) : countGo (a ++ b) = (countGo a + countGo b)%nat.
Proof.
  induction a as [|e a IH]; [reflexivity|].
  cbn [app countGo]. destruct e; try exact IH.
  destruct (startsWith cmd "go"); [cbn; now rewrite IH | exact IH].
Qed.

Lemma searchTrace_countGo (b : bool) (t : list event) :
  searchTrace depth b t -> countGo t = 1%nat.
Proof. intros H. inversion H; subst; reflexivity. Qed.

Lemma scoreRecord_countGo (i : nat) (rec : MoveRecord) (s s' : session)
      (o : option MoveScore) :
  scoreRecord depth i rec s = (Ok o, s') ->
  exists t, log s' = log s ++ t
            /\ countGo t = match o with Some _ => 3%nat | None => 1%nat end.
Proof.
  unfold scoreRecord. intros H. apply bind_ok in H. destruct H as (line & s1 & E1 & H).
  apply requestBestMove_trace in E1. destruct E1 as (t1 & L1 & T1). cbn [isOk] in T1.
  apply searchTrace_countGo in T1.
  destruct (fenAfterBestOf rec line) as [fenAfterBest|].
  - apply bind_ok in H. destruct H as (evalBest & s2 & E2 & H).
    apply bind_ok in H. destruct H as (evalPlayed & s3 & E3 & H).
    apply evalPosition_trace in E2. destruct E2 as (t2 & L2 & T2).
    apply evalPosition_trace in E3. destruct E3 as (t3 & L3 & T3).
    cbn [isOk] in T2, T3. apply searchTrace_countGo in T2, T3.
    inversion H; subst. exists (t1 ++ t2 ++ t3). split.
    + now rewrite L3, L2, L1, !app_assoc.
    + rewrite !countGo_app. lia.
  - inversion H; subst. exists t1. auto.
Qed.

Lemma scoreMoves_countGo (recs : list MoveRecord) (i : nat) (acc out : list MoveScore)
      (s s' : session) :
  scoreMoves depth recs i acc s = (Ok out, s') ->
  exists t, log s' = log s ++ t
            /\ (countGo t + 2 * List.length acc
                = List.length recs + 2 * List.length out)%nat.
Proof.
  revert i acc s. induction recs as [|rec rest IH]; intros i acc s H.
  - inversion H; subst. exists []. rewrite app_nil_r. split; [reflexivity | cbn; lia].
  - cbn [scoreMoves] in H. apply bind_ok in H. destruct H as (o & s1 & E1 & H).
    apply scoreRecord_countGo in E1. destruct E1 as (t1 & L1 & C1).
    destruct o as [m|]; destruct (IH _ _ _ H) as (t2 & L2 & C2);
      exists (t1 ++ t2); (split; [now rewrite L2, L1, app_assoc|]);
      rewrite countGo_app; cbn [List.length] in *;
      try rewrite length_app in C2; cbn [List.length] in *; lia.
Qed.

(** X7.  What a successful analysis costs.  [out] is what the loop of this
    analysis scored (the engine became ready in the session [s0]; the
    loop, started there, ended with the entries [out]).  The analysis
    returns the accuracy of [out], and its log holds one [go] command for
    every record of the game and two more for every entry of [out]. *)
Theorem analyze_search_count (recs : list MoveRecord) (lines : list string)
        (ready : string) (s0 : session) (out : list MoveScore) (s1 : session) :
  startEngine (fresh lines) = (Ok ready, s0) ->
  scoreMoves depth recs 0 [] s0 = (Ok out, s1) ->
  fst (analyze depth recs (fresh lines)) = Ok (accuracyPct out)
  /\ countGo (log (snd (analyze depth recs (fresh lines))))
     = (List.length recs + 2 * List.length out)%nat.
Proof.
  intros Hstart H. rewrite (analyze_run depth recs lines ready s0 out s1 Hstart H).
  cbn [fst snd log]. split; [reflexivity|].
  apply scoreMoves_countGo in H. destruct H as (t & L & C). cbn [List.length] in C.
  assert (L0 : log s0 = [Spawn STOCKFISH_CMD; Write "uci"; Sleep 200; Write "isready";
                         SetOnLine 5000; Resolve ready]).
  { revert Hstart. unfold startEngine, newEngine, waitForLineMatching, fresh.
    cbv beta delta [bind emit send sleep] iota. cbn [log inbox app].
    rewrite awaitHandler_run. cbn [inbox log app].
    match goal with
    | |- context [deliver ?h tt lines] =>
        destruct (deliver h tt lines) as [[[r line] rest]|] eqn:E
    end; [|discriminate].
    apply deliver_matching in E. destruct E as (-> & _).
    intros Hs. inversion Hs; subst. reflexivity. }
  rewrite L, L0, !countGo_app. cbn. lia.
Qed.

End LoopFacts.

Lemma scoreMoves_entries_in_order_witness :
  StronglySorted lt [1%nat]
  /\ (List.length [mkMoveScore 1 "e4" 300 0.10] <= List.length [sampleRecord])%nat.
Proof.
  destruct (scoreMoves_entries_in_order (chess := lenientChess) 18 [sampleRecord]
              [mkMoveScore 1 "e4" 300 0.10] (fresh blunderLines) _ eq_refl)
    as (H1 & _ & H3).
  split; [exact H1 | exact H3].
Defined.

Lemma analyze_search_count_witness :
  countGo (log (snd (analyze (chess := lenientChess) 18 [sampleRecord]
                       (fresh ("readyok" :: blunderLines)))))
  = 3%nat.
Proof.
  exact (proj2 (analyze_search_count (chess := lenientChess) 18 [sampleRecord]
                  ("readyok" :: blunderLines) "readyok" _ [mkMoveScore 1 "e4" 300 0.10] _
                  eq_refl eq_refl)).
Defined.

Section Waits.

Context {chess : ChessLib}.
Variable depth : N.

(* ------------------------------------------------------------------ *)
(** ** What the waits ignore *)

Lemma deliver_skip_matching (p : string -> bool) (noise lines : list string) :
  (forall l, In l noise -> p l = false) ->
  deliver (fun (_ : unit) l => (tt, if p l then Some l else None)) tt (noise ++ lines)
  = deliver (fun (_ : unit) l => (tt, if p l then Some l else None)) tt lines.
Proof.
  intros H. induction noise as [|l noise IH]; [reflexivity|].
  cbn [app deliver]. rewrite (H l) by now left.
  apply IH. intros l' Hl'. apply H. now right.
Qed.

Lemma waitForLineMatching_skip (p : string -> bool) (timeout : Z)
      (noise lines : list string) (done : list event) :
  (forall l, In l noise -> p l = false) ->
  waitForLineMatching p timeout (mkSession (noise ++ lines) done)
  = waitForLineMatching p timeout (mkSession lines done).
Proof.
  intros H. unfold waitForLineMatching. rewrite !awaitHandler_run. cbn [inbox log].
  now rewrite deliver_skip_matching.
Qed.

(** X9.  Whatever the engine prints before ["readyok"] (the answer to the
    handshake, for instance) has no influence on the analysis: the result
    and the log are those of the analysis without these lines. *)
Theorem analyze_ignores_lines_before_readyok (recs : list MoveRecord)
        (noise lines : list string) :
  (forall l, In l noise -> l <> "readyok") ->
  analyze depth recs (fresh (noise ++ lines)) = analyze depth recs (fresh lines).
Proof.
  intros H. unfold analyze, newEngine, fresh.
  cbv beta delta [bind emit send sleep] iota. cbn [log inbox app].
  rewrite waitForLineMatching_skip; [reflexivity|].
  intros l Hl. apply String.eqb_neq. now apply H.
Qed.

(** X10.  What the engine prints during the first search of a record, before
    the best-move line, is ignored, score announcements included: only the
    best-move line counts there.  The loop body gives the same result and
    leaves the same session with or without these lines. *)
Theorem scoreRecord_ignores_first_search_output (i : nat) (rec : MoveRecord)
        (noise lines : list string) (done : list event) :
  (forall l, In l noise -> startsWith l "bestmove" = false) ->
  scoreRecord depth i rec (mkSession (noise ++ lines) done)
  = scoreRecord depth i rec (mkSession lines done).
Proof.
  intros H. unfold scoreRecord, requestBestMove.
  rewrite !(bind_run (send _ ;; _)).
  rewrite !(bind_run (send _)), !send_run. cbn [inbox log].
  rewrite !(bind_run (send _)), !send_run. cbn [inbox log].
  now rewrite waitForLineMatching_skip.
Qed.

End Waits.

Lemma analyze_ignores_lines_before_readyok_witness :
  analyze (chess := lenientChess) 18 [sampleRecord]
          (fresh (["id name engine"; "uciok"] ++ "readyok" :: blunderLines))
  = analyze (chess := lenientChess) 18 [sampleRecord] (fresh ("readyok" :: blunderLines)).
Proof.
  apply (analyze_ignores_lines_before_readyok (chess := lenientChess) 18 [sampleRecord]
           ["id name engine"; "uciok"] ("readyok" :: blunderLines)).
  intros l [<-|[<-|[]]]; discriminate.
Defined.

Lemma scoreRecord_ignores_first_search_output_witness :
  scoreRecord (chess := lenientChess) 18 0 sampleRecord
    (mkSession (["info depth 1 score cp 500"; "info depth 2 score mate 1"] ++ blunderLines) [])
  = scoreRecord (chess := lenientChess) 18 0 sampleRecord (mkSession blunderLines []).
Proof.
  apply (scoreRecord_ignores_first_search_output (chess := lenientChess) 18 0 sampleRecord
           ["info depth 1 score cp 500"; "info depth 2 score mate 1"] blunderLines []).
  intros l [<-|[<-|[]]]; reflexivity.
Defined.

(* ------------------------------------------------------------------ *)
(** ** A game without a lost centipawn *)

Lemma checkPerfect_sound (count : nat) (n : nat) (sum : float) :
  checkPerfect count (Z.of_nat n) sum = true ->
  forall k, (1 <= k <= count)%nat ->
    (fold_left PrimFloat.add (repeat 1.0%float k) sum / numberOfNat (n + k) * 100)%float
    = 100%float.
Proof.
  revert n sum. induction count as [|count IH]; intros n sum Hc k Hk; [lia|].
  cbn [checkPerfect] in Hc. apply andb_prop in Hc. destruct Hc as [Hnow Hrec].
  replace (Z.of_nat n + 1) with (Z.of_nat (S n)) in * by lia.
  destruct k as [|k]; [lia|]. cbn [repeat fold_left].
  destruct k as [|k].
  - cbn [repeat fold_left]. apply Leibniz.eqb_spec in Hnow.
    replace (n + 1)%nat with (S n) by lia. exact Hnow.
  - replace (n + S (S k))%nat with (S n + S k)%nat by lia.
    apply (IH (S n) _ Hrec). lia.
Qed.

Lemma perfect_scores_sum (moveScores : list MoveScore) :
  Forall (fun m => score m = 1.0%float) moveScores ->
  map score moveScores = repeat 1.0%float (List.length moveScores).
Proof.
  induction 1 as [|m l Hm Hl IH]; [reflexivity|].
  cbn [map List.length repeat]. now rewrite Hm, IH.
Qed.

(** X11.  A game in which no scored move loses more than 10 centipawns gets
    exactly 100.  [out] is what the loop of this analysis scored (the
    engine became ready in the session [s0]; the loop, started there, ended
    with the entries [out]), and the scores the engine announces are within
    2^52, where the numbers of the source are exact.  When [out] has
    between 1 and 1000 entries and the loss of each is at most 10, the
    analysis returns 100, with no rounding error. *)
Theorem analyze_perfect_game {chess : ChessLib} (depth : N) (recs : list MoveRecord)
        (lines : list string) (ready : string) (s0 : session) (out : list MoveScore)
        (s1 : session) :
  announcedWithin (2 ^ 52) lines = true ->
  startEngine (fresh lines) = (Ok ready, s0) ->
  scoreMoves depth recs 0 [] s0 = (Ok out, s1) ->
  (1 <= List.length out <= 1000)%nat ->
  Forall (fun ms => cpl ms <= 10) out ->
  fst (analyze depth recs (fresh lines)) = Ok 100%float.
Proof.
  intros _ Hstart H Hlen Hall.
  rewrite (analyze_run depth recs lines ready s0 out s1 Hstart H). cbn [fst]. f_equal.
  assert (Hs : Forall (fun m => score m = 1.0%float) out).
  { apply Forall_forall. intros ms Hin.
    destruct (centipawn_loss_table_entry depth recs s0 s1 out ms H Hin) as (i & m & c & ->).
    rewrite Forall_forall in Hall. specialize (Hall _ Hin). cbn [cpl score] in *.
    destruct (cplToMoveScore_cases c) as [[_ E]|[[Hc _]|[[Hc _]|[[Hc _]|[[Hc _]|[Hc _]]]]]];
      [exact E | lia..]. }
  assert (Hc : checkPerfect 1000 (Z.of_nat 0) 0%float = true) by (vm_compute; reflexivity).
  pose proof (checkPerfect_sound 1000 0 0%float Hc (List.length out) Hlen) as Hp.
  destruct out as [|m l]; [cbn in Hlen; lia|].
  unfold accuracyPct. rewrite fold_left_scores, (perfect_scores_sum _ Hs).
  exact Hp.
Qed.

Lemma analyze_perfect_game_witness :
  fst (analyze (chess := lenientChess) 18 [sampleRecord]
         (fresh ["readyok"; "bestmove d2d4"; "info depth 18 score cp 25"; "bestmove d7d5";
                 "info depth 18 score cp 31"; "bestmove e7e5"]))
  = Ok 100%float.
Proof.
  apply (analyze_perfect_game (chess := lenientChess) 18 [sampleRecord]
           ["readyok"; "bestmove d2d4"; "info depth 18 score cp 25"; "bestmove d7d5";
            "info depth 18 score cp 31"; "bestmove e7e5"]
           "readyok" _ [mkMoveScore 1 "e4" 0 1.0] _ eq_refl eq_refl eq_refl).
  - cbn. lia.
  - repeat constructor. cbn. lia.
Defined.

(* ------------------------------------------------------------------ *)
(** ** Mate announcements on one scale *)

Lemma parseScore_mate_announced (pre post : string) (N : Z) :
  announcesMate pre post N = true ->
  parseScoreFromInfoLine (pre ++ "score mate " ++ showZ N ++ post)
  = Some ((if N >=? 0 then 1 else -1) * (100000 - Z.abs N)).
Proof.
  unfold announcesMate.
  destruct (search (matchLitIntAt "score cp ") (pre ++ "score mate " ++ showZ N ++ post))
    eqn:Ecp; [discriminate|].
  intros H. apply andb_prop in H. destruct H as [Hpre Hpost].
  apply negb_true_iff in Hpost.
  rewrite (parseScore_mate _ (showZ N)); [now rewrite parseInt_showZ | exact Ecp |].
  rewrite search_skip by exact Hpre.
  apply search_found. now apply matchLitIntAt_showZ.
Qed.

(** X12.  Mate announcements and the centipawn scale.  For distances up to
    100000 a mate for the first player parses to a score that is not
    negative, a mate for the second player to one that is not positive, and
    of two mates for the same side the shorter one is the more extreme.
    Beyond 100000 the sign turns: a mate in more than 100000 for the first
    player parses to a negative score. *)
Theorem mate_scores_ordered (pre post : string) (N M : Z) :
  announcesMate pre post N = true ->
  announcesMate pre post M = true ->
  exists vN vM,
    parseScoreFromInfoLine (pre ++ "score mate " ++ showZ N ++ post) = Some vN
    /\ parseScoreFromInfoLine (pre ++ "score mate " ++ showZ M ++ post) = Some vM
    /\ (0 <= N < M -> M <= 100000 -> 0 <= vM < vN)
    /\ (M < N < 0 -> -100000 <= M -> vN < vM <= 0)
    /\ (100000 < N -> vN < 0)
    /\ (N < -100000 -> 0 < vN).
Proof.
  intros HN HM. rewrite (parseScore_mate_announced _ _ _ HN), (parseScore_mate_announced _ _ _ HM).
  eexists. eexists. split; [reflexivity | split; [reflexivity|]].
  destruct (Z.geb_spec N 0), (Z.geb_spec M 0); repeat split; intros; lia.
Qed.

Lemma mate_scores_ordered_witness :
  exists vN vM,
    parseScoreFromInfoLine "info depth 20 score mate 1 pv e2e4" = Some vN
    /\ parseScoreFromInfoLine "info depth 20 score mate 3 pv e2e4" = Some vM
    /\ 0 <= vM < vN.
Proof.
  destruct (mate_scores_ordered "info depth 20 " " pv e2e4" 1 3 eq_refl eq_refl)
    as (vN & vM & H1 & H2 & H3 & _).
  exists vN, vM. split; [exact H1 | split; [exact H2|]].
  apply H3; lia.
Defined.

(* ------------------------------------------------------------------ *)
(** ** The history of games *)

Import Report.

(** X13.  The history that is saved: the new game first, then the games
    loaded, in their order, cut after [MAX_HISTORY] = 100 records.  It is
    never empty and never longer than 100; with 100 or more games loaded,
    the oldest ones are dropped. *)
Theorem generateReport_history {fmt : NumberFormat} (history : list GameRecord)
        (now : string) (a r : float) :
  let saved := fst (generateReport history now a r) in
  List.length saved = Nat.min 100 (S (List.length history))
  /\ (1 <= List.length saved <= 100)%nat
  /\ nth_error saved 0 = Some (mkGameRecord now a r)
  /\ (forall i, (S i < 100)%nat -> nth_error saved (S i) = nth_error history i)
  /\ (forall i, (100 <= S i)%nat -> nth_error saved (S i) = None).
Proof.
  cbn [generateReport fst]. unfold MAX_HISTORY.
  set (new := mkGameRecord now a r).
  assert (L : List.length (firstn 100 (new :: history))
              = Nat.min 100 (S (List.length history))) by apply length_firstn.
  split; [exact L | split; [lia | split; [reflexivity | split]]].
  - intros i Hi. rewrite nth_error_firstn.
    destruct (Nat.ltb_spec (S i) 100); [reflexivity | lia].
  - intros i Hi. apply nth_error_None. lia.
Qed.

(* ------------------------------------------------------------------ *)
(** ** Comparisons of binary64 numbers *)

Ltac compare_cases :=
  repeat match goal with
  | H : context [Pos.compare_cont Eq ?a ?b] |- _ =>
      change (Pos.compare_cont Eq a b) with (Pos.compare a b) in H
  | |- context [Pos.compare_cont Eq ?a ?b] =>
      change (Pos.compare_cont Eq a b) with (Pos.compare a b)
  end;
  repeat match goal with
  | H : context [Z.compare ?a ?b] |- _ => destruct (Z.compare_spec a b)
  | |- context [Z.compare ?a ?b] => destruct (Z.compare_spec a b)
  | H : context [Pos.compare ?a ?b] |- _ => destruct (Pos.compare_spec a b)
  | |- context [Pos.compare ?a ?b] => destruct (Pos.compare_spec a b)
  end;
  cbn in *; try discriminate; try reflexivity; try lia.

Ltac by_shapes :=
  unfold SFleb, SFltb, SFcompare;
  repeat match goal with x : spec_float |- _ => destruct x as [[]|[]| |[] ? ?] end;
  try discriminate; try reflexivity.

Lemma SFleb_trans (x y z : spec_float) :
  SFleb x y = true -> SFleb y z = true -> SFleb x z = true.
Proof. by_shapes; intros H1 H2; compare_cases. Qed.

Lemma SFltb_leb_trans (x y z : spec_float) :
  SFltb x y = true -> SFleb y z = true -> SFltb x z = true.
Proof. by_shapes; intros H1 H2; compare_cases. Qed.

Lemma SFleb_ltb_trans (x y z : spec_float) :
  SFleb x y = true -> SFltb y z = true -> SFltb x z = true.
Proof. by_shapes; intros H1 H2; compare_cases. Qed.

Lemma SFltb_total (x y : spec_float) :
  SFltb x y = false -> SFleb y x = true \/ x = S754_nan \/ y = S754_nan.
Proof.
  unfold SFleb, SFltb, SFcompare.
  destruct x as [[]|[]| |[] ? ?], y as [[]|[]| |[] ? ?];
    try (right; left; reflexivity); try (right; right; reflexivity);
    try (left; reflexivity); try discriminate;
    intros H1; left; compare_cases.
Qed.

Lemma float_leb_trans (a b c : float) :
  (a <=? b)%float = true -> (b <=? c)%float = true -> (a <=? c)%float = true.
Proof. rewrite !FloatAxioms.leb_spec. apply SFleb_trans. Qed.

Lemma float_ltb_leb_trans (a b c : float) :
  (a <? b)%float = true -> (b <=? c)%float = true -> (a <? c)%float = true.
Proof. rewrite !FloatAxioms.ltb_spec, FloatAxioms.leb_spec. apply SFltb_leb_trans. Qed.

Lemma float_leb_ltb_trans (a b c : float) :
  (a <=? b)%float = true -> (b <? c)%float = true -> (a <? c)%float = true.
Proof. rewrite !FloatAxioms.ltb_spec, FloatAxioms.leb_spec. apply SFleb_ltb_trans. Qed.

Lemma is_nan_spec (d : float) : is_nan d = true <-> Prim2SF d = S754_nan.
Proof.
  unfold is_nan. rewrite FloatAxioms.eqb_spec. unfold SFeqb, SFcompare.
  destruct (Prim2SF d) as [[]|[]| |[] m e]; cbn;
    try (split; [discriminate | discriminate]); try (split; reflexivity).
  - rewrite Z.compare_refl.
    change (Pos.compare_cont Eq m m) with (Pos.compare m m). rewrite Pos.compare_refl.
    split; discriminate.
  - rewrite Z.compare_refl.
    change (Pos.compare_cont Eq m m) with (Pos.compare m m). rewrite Pos.compare_refl.
    split; discriminate.
Qed.

Lemma nan_compares (d c : float) :
  is_nan d = true ->
  (d <? c)%float = false /\ (c <? d)%float = false
  /\ (d <=? c)%float = false /\ (c <=? d)%float = false.
Proof.
  intros H. apply is_nan_spec in H.
  rewrite !FloatAxioms.ltb_spec, !FloatAxioms.leb_spec, H. unfold SFltb, SFleb, SFcompare.
  destruct (Prim2SF c); repeat split.
Qed.

(** Below or not below, unless one of the two is not a number. *)
Lemma float_ltb_total (a b : float) :
  (a <? b)%float = false ->
  (b <=? a)%float = true \/ is_nan a = true \/ is_nan b = true.
Proof.
  rewrite FloatAxioms.ltb_spec, FloatAxioms.leb_spec, !is_nan_spec. apply SFltb_total.
Qed.

(* ------------------------------------------------------------------ *)
(** ** Labels and summaries *)

Lemma performanceLabel_cases (d : float) :
  ((10 <=? d)%float = true /\ performanceLabel d = "Excellent")
  \/ ((10 <=? d)%float = false /\ (5 <=? d)%float = true /\ performanceLabel d = "Great")
  \/ ((5 <=? d)%float = false /\ (2 <=? d)%float = true /\ performanceLabel d = "Good")
  \/ ((10 <=? d)%float = false /\ (2 <=? d)%float = false /\ (-2 <? d)%float = true
      /\ performanceLabel d = "Fair")
  \/ ((10 <=? d)%float = false /\ (-2 <? d)%float = false /\ (-5 <? d)%float = true
      /\ performanceLabel d = "Bad")
  \/ ((10 <=? d)%float = false /\ (-2 <? d)%float = false /\ (-5 <? d)%float = false
      /\ (-10 <? d)%float = true /\ performanceLabel d = "Awful")
  \/ ((10 <=? d)%float = false /\ (5 <=? d)%float = false /\ (2 <=? d)%float = false
      /\ (-2 <? d)%float = false /\ (-5 <? d)%float = false /\ (-10 <? d)%float = false
      /\ performanceLabel d = "Terrible").
Proof.
  unfold performanceLabel.
  destruct (10 <=? d)%float; [left; auto|].
  destruct (5 <=? d)%float; [right; left; auto|].
  destruct (2 <=? d)%float; [do 2 right; left; auto|].
  destruct (-2 <? d)%float; [do 3 right; left; auto|].
  destruct (-5 <? d)%float; [do 4 right; left; auto|].
  destruct (-10 <? d)%float; [do 5 right; left; auto 10|].
  do 6 right. auto 10.
Qed.

(** X14.  The summary always opens with the sentence of one of the seven
    labels, never with the fallback sentence for an unknown label, and it
    always states the accuracy of the new game. *)
Theorem generateReport_opening {fmt : NumberFormat} (history : list GameRecord)
        (now : string) (a r : float) :
  exists opening diff,
    In opening summaryOpenings
    /\ diff = (a - computeMeanAccuracy (fst (generateReport history now a r)))%float
    /\ snd (generateReport history now a r)
       = (opening ++ "Your accuracy was " ++ numberToString a ++ ", which is "
          ++ diffTextOf diff ++ ".")%string.
Proof.
  cbn [generateReport fst snd].
  set (diff := (a - computeMeanAccuracy _)%float).
  unfold verbalSummaryForHome, summaryOpenings.
  destruct (performanceLabel_cases diff)
    as [[_ E]|[(_ & _ & E)|[(_ & _ & E)|[(_ & _ & _ & E)|[(_ & _ & _ & E)
        |[(_ & _ & _ & _ & E)|(_ & _ & _ & _ & _ & _ & E)]]]]]];
    rewrite E; cbn [String.eqb Ascii.eqb Bool.eqb]; eexists; exists diff;
    (split; [|split; [reflexivity | reflexivity]]); cbn; tauto.
Qed.

Section LabelsAndTexts.

Context {fmt : NumberFormat}.

(** X15.  The label and the distance text of a summary agree.  "Excellent"
    comes with "over 10% above"; "Great" and "Good" with "above"; "Bad" and
    "Awful" with "below"; "Terrible" with "over 10% below", except when the
    difference is not a number, which is labelled "Terrible" and described
    as "exactly at your recent average". *)
Theorem label_and_text_agree (d : float) :
  (performanceLabel d = "Excellent" ->
   diffTextOf d = "over 10% above your recent average")
  /\ (performanceLabel d = "Great" \/ performanceLabel d = "Good" ->
      diffTextOf d = (toFixed1 (PrimFloat.abs d) ++ "% above your recent average")%string)
  /\ (performanceLabel d = "Bad" \/ performanceLabel d = "Awful" ->
      diffTextOf d = (toFixed1 (PrimFloat.abs d) ++ "% below your recent average")%string)
  /\ (performanceLabel d = "Terrible" ->
      diffTextOf d = "over 10% below your recent average"
      \/ (is_nan d = true /\ diffTextOf d = "exactly at your recent average"))
  /\ (is_nan d = true ->
      performanceLabel d = "Terrible" /\ diffTextOf d = "exactly at your recent average").
Proof.
  assert (Above : forall c : float,
             (0 <? c)%float = true -> (c <=? -10)%float = false ->
             (10 <=? d)%float = false -> (c <=? d)%float = true ->
             diffTextOf d
             = (toFixed1 (PrimFloat.abs d) ++ "% above your recent average")%string).
  { intros c Hc0 Hc10 H10 Hcd. unfold diffTextOf. rewrite H10.
    destruct (d <=? -10)%float eqn:E.
    - pose proof (float_leb_trans _ _ _ Hcd E). congruence.
    - now rewrite (float_ltb_leb_trans _ _ _ Hc0 Hcd). }
  assert (Below : forall c : float,
             (c <? -10)%float = false -> (c <? d)%float = true ->
             (10 <=? d)%float = false -> (-2 <? d)%float = false ->
             diffTextOf d
             = (toFixed1 (PrimFloat.abs d) ++ "% below your recent average")%string).
  { intros c Hc10 Hcd H10 H2. unfold diffTextOf. rewrite H10.
    destruct (d <=? -10)%float eqn:E.
    { pose proof (float_ltb_leb_trans _ _ _ Hcd E). congruence. }
    destruct (0 <? d)%float eqn:E0.
    { assert (Hlt : (-2 <=? 0)%float = true) by reflexivity.
      pose proof (float_leb_ltb_trans (-2)%float 0%float d Hlt E0). congruence. }
    destruct (float_ltb_total _ _ H2) as [Hle|[Hn|Hn]].
    - assert (Hlt : (-2 <? 0)%float = true) by reflexivity.
      now rewrite (float_leb_ltb_trans d (-2)%float 0%float Hle Hlt).
    - discriminate Hn.
    - destruct (nan_compares d c Hn) as (_ & Hx & _). congruence. }
  assert (Nan : is_nan d = true ->
                performanceLabel d = "Terrible"
                /\ diffTextOf d = "exactly at your recent average").
  { intros Hn. unfold performanceLabel, diffTextOf.
    destruct (nan_compares d 10 Hn) as (_ & _ & _ & ->).
    destruct (nan_compares d 5 Hn) as (_ & _ & _ & ->).
    destruct (nan_compares d 2 Hn) as (_ & _ & _ & ->).
    destruct (nan_compares d (-2) Hn) as (_ & -> & _ & _).
    destruct (nan_compares d (-5) Hn) as (_ & -> & _ & _).
    destruct (nan_compares d (-10) Hn) as (_ & -> & -> & _).
    destruct (nan_compares d 0 Hn) as (-> & -> & _ & _).
    split; reflexivity. }
  refine (let Main := _ in
          conj (proj1 Main) (conj (proj1 (proj2 Main))
            (conj (proj1 (proj2 (proj2 Main)))
               (conj (proj2 (proj2 (proj2 Main))) Nan)))).
  destruct (performanceLabel_cases d)
    as [[T E]|[(T1 & T2 & E)|[(T1 & T2 & E)|[(T1 & T2 & T3 & E)|[(T1 & T2 & T3 & E)
        |[(T1 & T2 & T3 & T4 & E)|(T1 & T2 & T3 & T4 & T5 & T6 & E)]]]]]];
    rewrite E; (split; [|split; [|split]]);
    try (intros H; discriminate H); try (intros [H|H]; discriminate H).
  - intros _. unfold diffTextOf. now rewrite T.
  - intros _. apply (Above 5%float); auto.
  - intros _. apply (Above 2%float); auto.
    destruct (10 <=? d)%float eqn:E10; [|reflexivity].
    assert (H : (5 <=? 10)%float = true) by reflexivity.
    pose proof (float_leb_trans 5%float 10%float d H E10). congruence.
  - intros _. apply (Below (-5)%float); auto.
  - intros _. apply (Below (-10)%float); auto.
  - intros _. destruct (float_ltb_total _ _ T6) as [Hle|[Hn|Hn]].
    + left. unfold diffTextOf. now rewrite T1, Hle.
    + discriminate Hn.
    + right. split; [exact Hn | now apply Nan].
Qed.

(** X16.  A better difference never gets a worse label: when [a <= b], the
    label of [b] stands at the same place as the label of [a] or higher in
    the list from "Terrible" to "Excellent". *)
Theorem performanceLabel_monotone (a b : float) :
  (a <=? b)%float = true ->
  (placeIn labelsWorstFirst (performanceLabel a)
   <= placeIn labelsWorstFirst (performanceLabel b))%nat.
Proof.
  intros Hab.
  assert (Up : forall c, (c <=? a)%float = true -> (c <=? b)%float = true)
    by (intros c Hc; exact (float_leb_trans _ _ _ Hc Hab)).
  assert (Up' : forall c, (c <? a)%float = true -> (c <? b)%float = true)
    by (intros c Hc; exact (float_ltb_leb_trans _ _ _ Hc Hab)).
  destruct (performanceLabel_cases a)
    as [[T E]|[(_ & T & E)|[(_ & T & E)|[(_ & _ & T & E)|[(_ & _ & T & E)
        |[(_ & _ & _ & T & E)|(_ & _ & _ & _ & _ & _ & E)]]]]]];
    rewrite E; try (apply Up in T); try (apply Up' in T);
    unfold performanceLabel; try rewrite T;
    repeat match goal with
           | |- context [if ?t then _ else _] => destruct t
           end;
    cbn; lia.
Qed.

End LabelsAndTexts.

Lemma performanceLabel_monotone_witness :
  (placeIn labelsWorstFirst (performanceLabel (-3.5)%float)
   <= placeIn labelsWorstFirst (performanceLabel 6.25%float))%nat.
Proof. exact (performanceLabel_monotone (-3.5)%float 6.25%float eq_refl). Defined.

(* ------------------------------------------------------------------ *)
(** ** The latest game of the month *)

Import Latest.

Lemma isGamesResponse_shape (raw : json) :
  isGamesResponse raw = true ->
  exists fields games, raw = JObject fields /\ lookup "games" fields = Some (JArray games).
Proof.
  unfold isGamesResponse. destruct (negb (truthy raw)); [discriminate|].
  destruct raw as [| | | | |fields]; try discriminate.
  destruct (lookup "games" fields) as [[| | | |games|]|] eqn:El; try discriminate.
  intros _. exists fields, games. split; [reflexivity | exact El].
Qed.

(** X17.  When [getLatestGame] returns, the response was successful and its
    body an object whose [games] is an array.  It returns the empty string
    exactly for an empty array; otherwise what it returns is the [pgn] of
    the last game of the array, which is a string that is not empty, or an
    array (the function lets an array pass). *)
Theorem getLatestGame_returns (res : response) (v : json) :
  getLatestGame res = inr v ->
  ok res = true
  /\ exists fields games,
       body res = Some (JObject fields)
       /\ lookup "games" fields = Some (JArray games)
       /\ ((games = [] /\ v = JString "")
           \/ (games <> []
               /\ member "pgn" (last games JNull) = inr (Some v)
               /\ ((exists s, v = JString s /\ s <> "") \/ exists items, v = JArray items))).
Proof.
  unfold getLatestGame. destruct (ok res); [|discriminate]. cbn [negb].
  destruct (body res) as [raw|]; [|discriminate].
  destruct (isGamesResponse raw) eqn:Eg; [|discriminate]. cbn [negb].
  destruct (isGamesResponse_shape raw Eg) as (fields & games & -> & El). rewrite El.
  intros H. split; [reflexivity|]. exists fields, games.
  split; [reflexivity | split; [exact El|]].
  destruct games as [|g gs]; [left; inversion H; auto|].
  right. split; [discriminate|].
  set (latest := last (g :: gs) JNull) in *.
  destruct (member "url" latest) as [e|u]; [discriminate|].
  destruct (member "pgn" latest) as [e|pgn]; [discriminate|].
  destruct (sliceForLog pgn) as [e|[]] eqn:Es; [discriminate|].
  destruct pgn as [p|]; [|discriminate].
  destruct (truthy p) eqn:Et; [|discriminate].
  injection H as Hv. subst p. split; [reflexivity|].
  destruct v as [| | |s|items|]; try discriminate Es; try discriminate Et.
  - left. exists s. split; [reflexivity|]. cbn in Et.
    intros ->. discriminate Et.
  - right. eauto.
Qed.

Lemma getLatestGame_returns_witness :
  exists fields games,
    Some (JObject [("games", JArray [JObject [("url", JString "u1")];
                                     JObject [("pgn", JString "1. e4 e5")]])])
    = Some (JObject fields)
    /\ lookup "games" fields = Some (JArray games)
    /\ member "pgn" (last games JNull) = inr (Some (JString "1. e4 e5")).
Proof.
  destruct (getLatestGame_returns
              (mkResponse true 200 "OK"
                 (Some (JObject [("games", JArray [JObject [("url", JString "u1")];
                                                   JObject [("pgn", JString "1. e4 e5")]])])))
              (JString "1. e4 e5") eq_refl)
    as (_ & fields & games & Hb & Hl & [[_ Hv]|(_ & Hm & _)]).
  - discriminate Hv.
  - exists fields, games. auto.
Defined.

Lemma getLatestGame_games (res : response) (fields : list (string * json))
      (earlier : list json) (latest : json) :
  ok res = true ->
  body res = Some (JObject fields) ->
  lookup "games" fields = Some (JArray (earlier ++ [latest])) ->
  getLatestGame res
  = match member "url" latest with
    | inl e => inl e
    | inr _ =>
        match member "pgn" latest with
        | inl e => inl e
        | inr pgn =>
            match sliceForLog pgn with
            | inl e => inl e
            | inr _ =>
                match pgn with
                | Some p =>
                    if truthy p then inr p
                    else inl (ErrorMessage "Unexpected response shape from Chess.com API")
                | None => inl (ErrorMessage "Unexpected response shape from Chess.com API")
                end
            end
        end
    end.
Proof.
  intros Hok Hb Hl. unfold getLatestGame. rewrite Hok, Hb. cbn [negb].
  unfold isGamesResponse. cbn [truthy negb]. rewrite Hl. cbn [negb].
  rewrite last_last.
  destruct (earlier ++ [latest]) eqn:E; [now destruct earlier|].
  reflexivity.
Qed.

(** X18.  Only the last game of the array counts: two successful responses
    whose arrays of games end with the same game give the same outcome,
    return or throw, whatever the games before it and the other properties
    of the body are. *)
Theorem getLatestGame_last_only (res1 res2 : response)
        (fields1 fields2 : list (string * json))
        (earlier1 earlier2 : list json) (latest : json) :
  ok res1 = true -> ok res2 = true ->
  body res1 = Some (JObject fields1) ->
  body res2 = Some (JObject fields2) ->
  lookup "games" fields1 = Some (JArray (earlier1 ++ [latest])) ->
  lookup "games" fields2 = Some (JArray (earlier2 ++ [latest])) ->
  getLatestGame res1 = getLatestGame res2.
Proof.
  intros Hok1 Hok2 Hb1 Hb2 Hl1 Hl2.
  rewrite (getLatestGame_games res1 fields1 earlier1 latest Hok1 Hb1 Hl1).
  rewrite (getLatestGame_games res2 fields2 earlier2 latest Hok2 Hb2 Hl2).
  reflexivity.
Qed.

Lemma getLatestGame_last_only_witness :
  getLatestGame
    (mkResponse true 200 "OK"
       (Some (JObject [("games", JArray ([JNull; JString "x"]
                                         ++ [JObject [("pgn", JString "1. d4 d5")]]))])))
  = getLatestGame
      (mkResponse true 200 "OK"
         (Some (JObject [("month", JNumber 11);
                         ("games", JArray ([] ++ [JObject [("pgn", JString "1. d4 d5")]]))]))).
Proof.
  apply (getLatestGame_last_only _ _
           [("games", JArray ([JNull; JString "x"]
                              ++ [JObject [("pgn", JString "1. d4 d5")]]))]
           [("month", JNumber 11);
            ("games", JArray ([] ++ [JObject [("pgn", JString "1. d4 d5")]]))]
           [JNull; JString "x"] [] (JObject [("pgn", JString "1. d4 d5")]));
    reflexivity.
Defined.
